(** * CompletionTreeView: the token prefix tree of [tree_builder.py]

    A shallow embedding of [TreeNode] and [CompletionTree]
    (src/completion_tree_view/tree_builder.py) and the properties of tree
    construction, structural hashing and leaf statistics.

    Modelling choices.
    - Token ids are Python ints ([Z]); the root carries the string ["ROOT"].
    - [node.children] is a Python dict.  Its iteration order is insertion
      order and that order is observable (the statistics pass adds the
      children's score sums in that order), so it is an association list
      with unique keys: [dict_get], [dict_set].
    - The nodes of one tree are never shared, so the in-place updates of the
      source are functional updates of the embedded tree.
    - Scores are Python floats.  The model is parametric in the float type
      and its operations ([fzero] is [0.0], [fadd] is [+], [fdiv_int] is a
      float divided by an int), so every result below holds for IEEE
      doubles; results that need exact arithmetic say so in a hypothesis.
    - [json.dumps] and the builtin [hash] belong to the Python runtime, not
      to this repository: they are parameters.
    - [self._next_id] is threaded explicitly; a raised [IndexError] is
      [None] in the [option] monad. *)

From Stdlib Require Import String Ascii.
From Stdlib Require Import List ZArith Lia Bool Permutation Arith.
From Stdlib Require Import DecimalString.
From Corelib Require Import PrimFloat SpecFloat FloatOps.
From Stdlib Require Import Uint63.
Import ListNotations.

Set Implicit Arguments.
Set Warnings "-register-all".

(** ** Python values *)

(** [token_id]: the string ["ROOT"] at the root, an int anywhere else. *)
Inductive token : Type :=
| ROOT : token
| Tok (t : Z) : token.

(** The values [_stable_hash] is applied to: what [hash_components] is built
    from. *)
Inductive pyvalue (F : Type) : Type :=
| PyNone : pyvalue F
| PyBool (b : bool) : pyvalue F
| PyInt (z : Z) : pyvalue F
| PyFloat (x : F) : pyvalue F
| PyStr (s : string) : pyvalue F
| PyTuple (items : list (pyvalue F)) : pyvalue F.

Arguments PyNone {F}.
Arguments PyBool {F} b.
Arguments PyInt {F} z.
Arguments PyStr {F} s.

(** ** Dicts keyed by token id, in insertion order *)

Section Dict.
Variable V : Type.

(** [d.get(k)] *)
Fixpoint dict_get (k : Z) (d : list (Z * V)) : option V :=
  match d with
  | [] => None
  | (k', v) :: rest => if Z.eqb k k' then Some v else dict_get k rest
  end.

(** [d[k] = v]: an existing key keeps its place, a new key goes last. *)
Fixpoint dict_set (k : Z) (v : V) (d : list (Z * V)) : list (Z * V) :=
  match d with
  | [] => [(k, v)]
  | (k', v') :: rest =>
      if Z.eqb k k' then (k, v) :: rest else (k', v') :: dict_set k v rest
  end.

Definition keys (d : list (Z * V)) : list Z := map fst d.
Definition values (d : list (Z * V)) : list V := map snd d.

(** [sorted(d.items())]: the keys of a dict are distinct, so the order of
    the (key, value) tuples is the order of their keys. *)
Fixpoint insert_item (x : Z * V) (l : list (Z * V)) : list (Z * V) :=
  match l with
  | [] => [x]
  | y :: rest =>
      if Z.leb (fst x) (fst y) then x :: l else y :: insert_item x rest
  end.

Definition sorted (l : list (Z * V)) : list (Z * V) :=
  fold_right insert_item [] l.
End Dict.

(** [str(z)] of an int. *)
Definition text_of_Z (z : Z) : string :=
  NilZero.string_of_int (Z.to_int z).

(** ** plotter.py: the label of a node *)

(** A Python [str]: its code points. *)
Definition pystr : Type := list Z.

Definition codes (s : string) : pystr :=
  map (fun a : ascii => Z.of_nat (nat_of_ascii a)) (list_ascii_of_string s).

(** [s.replace(c, r)] for a one-character [c]. *)
Definition replace (c : Z) (r : pystr) (s : pystr) : pystr :=
  flat_map (fun x : Z => if Z.eqb x c then r else [x]) s.

(** [s[:k]]: a negative [k] counts from the end. *)
Definition slice_to (k : Z) (s : pystr) : pystr :=
  if Z.leb 0 k then firstn (Z.to_nat k) s
  else firstn (Z.to_nat (Z.of_nat (List.length s) + k)) s.

(** [_decode_token_for_display].  [token_id] is ["ROOT"], [None] or an int;
    [decode t] is [tokenizer.decode([t], skip_special_tokens=False)], [None]
    when it raises. *)
Definition _decode_token_for_display (decode : Z -> option pystr)
    (token_id : option token) (max_length : Z) : pystr :=
  match token_id with
  | Some ROOT => codes "ROOT"
  | None => codes "???"
  | Some (Tok t) =>
      match decode t with
      | Some decoded =>
          let safe_decoded := replace 10 (codes "<NL>") decoded in
          let safe_decoded := replace 32 (codes "<SP>") safe_decoded in
          let safe_decoded := replace 9 (codes "<TAB>") safe_decoded in
          if Z.ltb max_length (Z.of_nat (List.length safe_decoded))
          then slice_to (max_length - 3) safe_decoded ++ codes "..."
          else safe_decoded
      | None => codes "ID:" ++ codes (text_of_Z t)
      end
  end.

Definition whitespace (x : Z) : bool :=
  Z.eqb x 10 || Z.eqb x 32 || Z.eqb x 9.

Definition visible (s : pystr) : bool := forallb (fun x => negb (whitespace x)) s.

(** ** A concrete Python runtime, for closed examples

    IEEE doubles are Rocq's primitive floats: [0.0], [+] and [/] are the
    operations of Python's float.  [json.dumps] and [hash] stand outside
    the repository; the two below are stand-ins of the same type (a JSON
    text with floats spelled as mantissa and exponent, and the string hash
    of CPython 2), used only where a statement has to be closed. *)

Module Sample.

Definition fzero : float := 0%float.

Definition fadd (x y : float) : float := PrimFloat.add x y.

Definition fdiv_int (x : float) (n : nat) : float :=
  PrimFloat.div x (PrimFloat.of_uint63 (Uint63.of_Z (Z.of_nat n))).

Definition text_of_float (x : float) : string :=
  match Prim2SF x with
  | S754_zero false => "0.0"
  | S754_zero true => "-0.0"
  | S754_infinity false => "Infinity"
  | S754_infinity true => "-Infinity"
  | S754_nan => "NaN"
  | S754_finite sign m e =>
      ((if sign then "-" else "") ++ text_of_Z (Zpos m) ++ "p" ++ text_of_Z e)
  end%string.

Definition quote : string := String (ascii_of_nat 34) EmptyString.

Fixpoint join (sep : string) (l : list string) : string :=
  match l with
  | [] => EmptyString
  | [x] => x
  | x :: rest => (x ++ sep ++ join sep rest)%string
  end.

Fixpoint json_dumps (v : pyvalue float) : string :=
  match v with
  | PyNone => "null"
  | PyBool true => "true"
  | PyBool false => "false"
  | PyInt z => text_of_Z z
  | PyFloat x => text_of_float x
  | PyStr s => quote ++ s ++ quote
  | PyTuple items => "[" ++ join ", " (map json_dumps items) ++ "]"
  end%string.

Definition wrap64 (z : Z) : Z := Z.modulo z (2 ^ 64).

Fixpoint hash_from (x : Z) (s : string) : Z :=
  match s with
  | EmptyString => x
  | String c rest =>
      hash_from (Z.lxor (wrap64 (1000003 * x)) (Z.of_nat (nat_of_ascii c))) rest
  end.

Definition hash (s : string) : Z :=
  match s with
  | EmptyString => 0
  | String c _ =>
      Z.lxor (hash_from (Z.shiftl (Z.of_nat (nat_of_ascii c)) 7) s)
             (Z.of_nat (String.length s))
  end.

(** The frames [json.dumps] needs: a generous stand-in.  CPython runs
    [dumps], [encode], [iterencode] and the encoder's descent into the
    nested tuples, a handful of frames. *)
Definition dumps_frames (v : pyvalue float) : nat := 10.

(** The whole numbers as floats: 0.0, 1.0, 2.0, ... *)
Definition units (k : nat) : float :=
  PrimFloat.of_uint63 (Uint63.of_Z (Z.of_nat k)).

End Sample.

(** ** The model *)

Section Model.
Variable pyfloat : Type.
Variable fzero : pyfloat.
Variable fadd : pyfloat -> pyfloat -> pyfloat.
Variable fdiv_int : pyfloat -> nat -> pyfloat.
Variable json_dumps : pyvalue pyfloat -> string.
Variable hash : string -> Z.
(** The call stack that [json.dumps] needs for a value, in frames: it
    belongs to the runtime as well. *)
Variable dumps_frames : pyvalue pyfloat -> nat.

(** *** class TreeNode *)

Inductive TreeNode : Type := mkTreeNode {
  token_id : token;
  unique_id : nat;
  children : list (Z * TreeNode);
  is_end_of_completion : bool;
  score : option pyfloat;
  count : nat;
  structural_hash : option Z;
  descendant_leaf_count : nat;
  descendant_score_sum : pyfloat
}.

(** [TreeNode.__init__] *)
Definition new_TreeNode (tok : token) (uid : nat) : TreeNode :=
  mkTreeNode tok uid [] false None 0 None 0 fzero.

Definition set_children (n : TreeNode) (cs : list (Z * TreeNode)) : TreeNode :=
  mkTreeNode (token_id n) (unique_id n) cs (is_end_of_completion n) (score n)
    (count n) (structural_hash n) (descendant_leaf_count n)
    (descendant_score_sum n).

Definition set_count (n : TreeNode) (c : nat) : TreeNode :=
  mkTreeNode (token_id n) (unique_id n) (children n) (is_end_of_completion n)
    (score n) c (structural_hash n) (descendant_leaf_count n)
    (descendant_score_sum n).

Definition set_end (n : TreeNode) : TreeNode :=
  mkTreeNode (token_id n) (unique_id n) (children n) true (score n)
    (count n) (structural_hash n) (descendant_leaf_count n)
    (descendant_score_sum n).

Definition set_score (n : TreeNode) (s : pyfloat) : TreeNode :=
  mkTreeNode (token_id n) (unique_id n) (children n) (is_end_of_completion n)
    (Some s) (count n) (structural_hash n) (descendant_leaf_count n)
    (descendant_score_sum n).

Definition set_hash (n : TreeNode) (cs : list (Z * TreeNode)) (h : Z) : TreeNode :=
  mkTreeNode (token_id n) (unique_id n) cs (is_end_of_completion n) (score n)
    (count n) (Some h) (descendant_leaf_count n) (descendant_score_sum n).

Definition set_stats (n : TreeNode) (cs : list (Z * TreeNode))
    (leaves : nat) (sum : pyfloat) : TreeNode :=
  mkTreeNode (token_id n) (unique_id n) cs (is_end_of_completion n) (score n)
    (count n) (structural_hash n) leaves sum.

(** The node reached from [n] along a token path, if there is one. *)
Fixpoint find_path (n : TreeNode) (p : list Z) : option TreeNode :=
  match p with
  | [] => Some n
  | t :: rest =>
      match dict_get t (children n) with
      | Some c => find_path c rest
      | None => None
      end
  end.

(** *** CompletionTree._build_tree *)

(** [if scores is not None and i < len(scores): node.score = scores[i]];
    [scores[i]] raises [IndexError] out of range. *)
Definition assign_score (i : nat) (scores : option (list pyfloat))
    (node : TreeNode) : option TreeNode :=
  match scores with
  | Some ss =>
      if Nat.ltb i (length ss)
      then match nth_error ss i with
           | Some s => Some (set_score node s)
           | None => None
           end
      else Some node
  | None => Some node
  end.

(** The body of [for i, tokens in enumerate(completions)], from the node
    the walk has reached: the inner loop over [tokens], then the end mark
    and the score.  A child that is missing is created with the next id;
    the walk steps into the child and adds one to its count. *)
Fixpoint walk (tokens : list Z) (i : nat) (scores : option (list pyfloat))
    (node : TreeNode) (next_id : nat) : option (TreeNode * nat) :=
  match tokens with
  | [] =>
      match assign_score i scores (set_end node) with
      | Some node' => Some (node', next_id)
      | None => None
      end
  | t :: rest =>
      let '(child, next1) :=
        match dict_get t (children node) with
        | Some c => (c, next_id)
        | None => (new_TreeNode (Tok t) next_id, S next_id)
        end in
      match walk rest i scores (set_count child (count child + 1)) next1 with
      | Some (child', next2) =>
          Some (set_children node (dict_set t child' (children node)), next2)
      | None => None
      end
  end.

Fixpoint build_loop (i : nat) (completions : list (list Z))
    (scores : option (list pyfloat)) (root : TreeNode) (next_id : nat)
    : option (TreeNode * nat) :=
  match completions with
  | [] => Some (root, next_id)
  | tokens :: rest =>
      match walk tokens i scores root next_id with
      | Some (root', next') => build_loop (S i) rest scores root' next'
      | None => None
      end
  end.

Definition _build_tree (completions : list (list Z))
    (scores : option (list pyfloat)) (next_id : nat)
    : option (TreeNode * nat) :=
  let root := set_count (new_TreeNode ROOT next_id) (length completions) in
  build_loop 0 completions scores root (S next_id).

(** *** CompletionTree._stable_hash and _compute_structural_hashes *)

Definition _stable_hash (value : pyvalue pyfloat) : Z :=
  hash (json_dumps value).

Definition py_token (tok : token) : pyvalue pyfloat :=
  match tok with
  | ROOT => PyStr "ROOT"%string
  | Tok t => PyInt t
  end.

Definition py_child_hash (kh : Z * Z) : pyvalue pyfloat :=
  PyTuple [PyInt (fst kh); PyInt (snd kh)].

(** [(node.token_id, node.is_end_of_completion,
     node.score if node.is_end_of_completion else None,
     tuple(child_hashes))] *)
Definition hash_components (node : TreeNode) (child_hashes : list (Z * Z))
    : pyvalue pyfloat :=
  PyTuple
    [ py_token (token_id node);
      PyBool (is_end_of_completion node);
      (if is_end_of_completion node
       then match score node with Some s => PyFloat s | None => PyNone end
       else PyNone);
      PyTuple (map py_child_hash child_hashes) ].

(** The recursive calls on the children touch disjoint subtrees, so they
    are made here in dict order and their results sorted by key
    afterwards; the source sorts first and calls in that order. *)
Fixpoint _compute_structural_hashes (node : TreeNode) : Z * TreeNode :=
  match structural_hash node with
  | Some h => (h, node)
  | None =>
      let results :=
        map (fun kc : Z * TreeNode =>
               (fst kc, _compute_structural_hashes (snd kc)))
            (children node) in
      let child_hashes :=
        map (fun r : Z * (Z * TreeNode) => (fst r, fst (snd r)))
            (sorted results) in
      let children' :=
        map (fun r : Z * (Z * TreeNode) => (fst r, snd (snd r))) results in
      let h := _stable_hash (hash_components node child_hashes) in
      (h, set_hash node children' h)
  end.

(** *** CompletionTree._compute_leaf_stats *)

Fixpoint _compute_leaf_stats (node : TreeNode) : (nat * pyfloat) * TreeNode :=
  if is_end_of_completion node then
    let total_leaves := 1 in
    let score_sum := match score node with Some s => s | None => fzero end in
    ((total_leaves, score_sum),
     set_stats node (children node) total_leaves score_sum)
  else
    let results :=
      map (fun kc : Z * TreeNode => (fst kc, _compute_leaf_stats (snd kc)))
          (children node) in
    let '(total_leaves, score_sum) :=
      fold_left
        (fun (acc : nat * pyfloat) (r : Z * ((nat * pyfloat) * TreeNode)) =>
           (fst acc + fst (fst (snd r)), fadd (snd acc) (snd (fst (snd r)))))
        results (0, fzero) in
    let children' :=
      map (fun r : Z * ((nat * pyfloat) * TreeNode) => (fst r, snd (snd r)))
          results in
    ((total_leaves, score_sum),
     set_stats node children' total_leaves score_sum).

(** *** class CompletionTree *)

Record CompletionTree : Type := mkCompletionTree {
  root : TreeNode;
  has_scores : bool;
  _next_id : nat
}.

(** [CompletionTree.__init__] *)
Definition CompletionTree_init (completions : list (list Z))
    (scores : option (list pyfloat)) : option CompletionTree :=
  match _build_tree completions scores 0 with
  | Some (built, next) =>
      let hashed := snd (_compute_structural_hashes built) in
      let counted := snd (_compute_leaf_stats hashed) in
      Some (mkCompletionTree counted
              (match scores with Some _ => true | None => false end) next)
  | None => None
  end.

(** [CompletionTree.get_node_score_percentage] *)
Definition get_node_score_percentage (tree : CompletionTree)
    (node : TreeNode) : option pyfloat :=
  if negb (has_scores tree) || Nat.eqb (descendant_leaf_count node) 0
  then None
  else Some (fdiv_int (descendant_score_sum node)
                      (descendant_leaf_count node)).

(** *** The two passes on a bounded call stack

    Both passes call themselves once per level of the tree, and at every
    level the fingerprint pass also calls [self._stable_hash], which calls
    [json.dumps].  With [frames] calls left on the interpreter's stack, a
    call that would need one more raises [RecursionError] ([None]).  The
    builtins ([sorted], [tuple], [hash], [dict.items], [dict.values]) take
    no frame. *)

Fixpoint all_some (A : Type) (l : list (Z * option A)) : option (list (Z * A)) :=
  match l with
  | [] => Some []
  | (k, None) :: _ => None
  | (k, Some a) :: rest =>
      match all_some rest with
      | Some rest' => Some ((k, a) :: rest')
      | None => None
      end
  end.

(** [self._stable_hash(value)]: one frame of its own, and below it what
    [json.dumps] needs. *)
Definition _stable_hash_within (frames : nat) (value : pyvalue pyfloat)
    : option Z :=
  match frames with
  | 0 => None
  | S frames' =>
      if Nat.leb (dumps_frames value) frames'
      then Some (_stable_hash value)
      else None
  end.

Fixpoint _compute_structural_hashes_within (frames : nat) (node : TreeNode)
    : option (Z * TreeNode) :=
  match frames with
  | 0 => None
  | S frames' =>
      match structural_hash node with
      | Some h => Some (h, node)
      | None =>
          match all_some
                  (map (fun kc : Z * TreeNode =>
                          (fst kc,
                           _compute_structural_hashes_within frames' (snd kc)))
                       (children node)) with
          | None => None
          | Some results =>
              let child_hashes :=
                map (fun r : Z * (Z * TreeNode) => (fst r, fst (snd r)))
                    (sorted results) in
              let children' :=
                map (fun r : Z * (Z * TreeNode) => (fst r, snd (snd r)))
                    results in
              match _stable_hash_within frames'
                      (hash_components node child_hashes) with
              | None => None
              | Some h => Some (h, set_hash node children' h)
              end
          end
      end
  end.

Fixpoint _compute_leaf_stats_within (frames : nat) (node : TreeNode)
    : option ((nat * pyfloat) * TreeNode) :=
  match frames with
  | 0 => None
  | S frames' =>
      if is_end_of_completion node then
        let score_sum := match score node with Some s => s | None => fzero end in
        Some ((1, score_sum), set_stats node (children node) 1 score_sum)
      else
        match all_some
                (map (fun kc : Z * TreeNode =>
                        (fst kc, _compute_leaf_stats_within frames' (snd kc)))
                     (children node)) with
        | None => None
        | Some results =>
            let '(total_leaves, score_sum) :=
              fold_left
                (fun (acc : nat * pyfloat)
                     (r : Z * ((nat * pyfloat) * TreeNode)) =>
                   (fst acc + fst (fst (snd r)),
                    fadd (snd acc) (snd (fst (snd r)))))
                results (0, fzero) in
            let children' :=
              map (fun r : Z * ((nat * pyfloat) * TreeNode) =>
                     (fst r, snd (snd r)))
                  results in
            Some ((total_leaves, score_sum),
                  set_stats node children' total_leaves score_sum)
        end
  end.

(** *** What a tree stands for

    An arrival at a node is what is left of an inserted sequence when the
    walk reaches the node, with the score the sequence sets at its last
    node ([None] when no score is supplied or its index is out of
    range). *)

Definition arrival : Type := (list Z * option pyfloat)%type.

Definition score_at (scores : option (list pyfloat)) (i : nat)
    : option pyfloat :=
  match scores with
  | Some ss => nth_error ss i
  | None => None
  end.

(** The arrivals of [completions[i:]], in order. *)
Fixpoint arrivals_from (i : nat) (completions : list (list Z))
    (scores : option (list pyfloat)) : list arrival :=
  match completions with
  | [] => []
  | tokens :: rest =>
      (tokens, score_at scores i) :: arrivals_from (S i) rest scores
  end.

Definition arrivals := arrivals_from 0.

(** The arrivals that continue with token [t], past [t]. *)
Fixpoint sub (t : Z) (L : list arrival) : list arrival :=
  match L with
  | [] => []
  | ([], _) :: rest => sub t rest
  | (t' :: s, o) :: rest =>
      if Z.eqb t t' then (s, o) :: sub t rest else sub t rest
  end.

(** The arrivals past a whole path. *)
Fixpoint sub_path (p : list Z) (L : list arrival) : list arrival :=
  match p with
  | [] => L
  | t :: rest => sub_path rest (sub t L)
  end.

Definition ends_here (a : arrival) : bool :=
  match fst a with [] => true | _ :: _ => false end.

Definition has_nil (L : list arrival) : bool := existsb ends_here L.

Definition count_nil (L : list arrival) : nat :=
  List.length (filter ends_here L).

Definition score_step (acc : option pyfloat) (a : arrival) : option pyfloat :=
  match a with
  | ([], Some s) => Some s
  | _ => acc
  end.

(** The score of the last arrival that ends here and carries one. *)
Definition last_score (L : list arrival) : option pyfloat :=
  fold_left score_step L None.

(** [repr n L]: the subtree at [n] is what inserting the arrivals [L] at
    [n] builds.  The node's own token and count belong to its parent's
    view of it. *)
Inductive repr : TreeNode -> list arrival -> Prop :=
| repr_node (n : TreeNode) (L : list arrival) :
    is_end_of_completion n = has_nil L ->
    score n = last_score L ->
    NoDup (keys (children n)) ->
    (forall t, dict_get t (children n) = None -> sub t L = []) ->
    (forall t c, dict_get t (children n) = Some c ->
       token_id c = Tok t /\ count c = List.length (sub t L) /\
       sub t L <> [] /\ repr c (sub t L)) ->
    repr n L.

(** Every node below [n] (and [n]) has no hash and no statistics yet. *)
Inductive fresh : TreeNode -> Prop :=
| fresh_node (n : TreeNode) :
    structural_hash n = None ->
    (forall t c, In (t, c) (children n) -> fresh c) ->
    fresh n.

Definition sum_counts (d : list (Z * TreeNode)) : nat :=
  fold_right (fun kc acc => count (snd kc) + acc) 0 d.

(** [max(len(c) for c in completions)], 0 for the empty batch. *)
Definition longest (completions : list (list Z)) : nat :=
  fold_right (fun c acc => Nat.max (List.length c) acc) 0 completions.

(** The longest path below a node. *)
Fixpoint height (n : TreeNode) : nat :=
  fold_right (fun kc acc => Nat.max (S (height (snd kc))) acc) 0 (children n).


(** A node without what the two passes write: the tree as construction
    left it. *)
Fixpoint core (n : TreeNode) : TreeNode :=
  mkTreeNode (token_id n) (unique_id n)
    (map (fun kc : Z * TreeNode => (fst kc, core (snd kc))) (children n))
    (is_end_of_completion n) (score n) (count n) None 0 fzero.



(** The (token, fingerprint) pairs of a node's children, by token. *)
Definition child_fingerprints (n : TreeNode) : list (Z * option Z) :=
  map (fun kc : Z * TreeNode => (fst kc, structural_hash (snd kc)))
      (sorted (children n)).



(** The score that the arrivals ending exactly at path [p] leave there:
    that of the last one that carries a score. *)
Definition last_score_at (p : list Z) (L : list arrival) : option pyfloat :=
  fold_left
    (fun (acc : option pyfloat) (a : arrival) =>
       if list_eq_dec Z.eq_dec (fst a) p
       then match snd a with Some s => Some s | None => acc end
       else acc)
    L None.

(** The fingerprint of a node, computed afresh: what
    [_compute_structural_hashes] returns when no hash is cached below the
    node. *)
Fixpoint fingerprint (n : TreeNode) : Z :=
  _stable_hash
    (hash_components n
       (sorted (map (fun kc : Z * TreeNode => (fst kc, fingerprint (snd kc)))
                    (children n)))).

(** The tuple that is hashed at a node. *)
Definition node_components (n : TreeNode) : pyvalue pyfloat :=
  hash_components n
    (sorted (map (fun kc : Z * TreeNode => (fst kc, fingerprint (snd kc)))
                 (children n))).

(** Every node below [n] (and [n]) caches its own fingerprint. *)
Inductive hashed : TreeNode -> Prop :=
| hashed_node (n : TreeNode) :
    structural_hash n = Some (fingerprint n) ->
    (forall t c, In (t, c) (children n) -> hashed c) ->
    hashed n.

(** The fingerprint rule of the specification, between two nodes. *)
Definition same_structure (n1 n2 : TreeNode) : Prop :=
  token_id n1 = token_id n2 /\
  is_end_of_completion n1 = is_end_of_completion n2 /\
  (is_end_of_completion n1 = true -> score n1 = score n2) /\
  child_fingerprints n1 = child_fingerprints n2.

(** The sum of a list of floats, and the score an arrival adds to the
    statistics of the node it ends at. *)
Definition fsum (l : list pyfloat) : pyfloat := fold_right fadd fzero l.

Definition value (a : arrival) : pyfloat :=
  match snd a with Some s => s | None => fzero end.

(** Scores counted in whole units: the units of sequence [s] are [wt s],
    and [weigh wt L] is the total over the arrivals [L]. *)
Definition weigh (wt : list Z -> nat) (L : list arrival) : nat :=
  list_sum (map (fun a : arrival => wt (fst a)) L).

(** The units listed for a sequence in [l], 0 when it is not listed. *)
Fixpoint weight_of (l : list (list Z * nat)) (s : list Z) : nat :=
  match l with
  | [] => 0
  | (s', k) :: rest =>
      if list_eq_dec Z.eq_dec s s' then k else weight_of rest s
  end.

(** [q] is a prefix of [p]. *)
Definition is_prefix (q p : list Z) : Prop := exists r, p = q ++ r.

(** No arrival stops where another goes on. *)
Definition prefix_free (L : list arrival) : Prop :=
  forall a b, In a L -> In b L -> is_prefix (fst a) (fst b) -> fst a = fst b.

(** The root fingerprint of the batch that holds the one sequence [[a]]. *)
Definition probe (a : Z) : Z :=
  match CompletionTree_init [[a]] None with
  | Some tree =>
      match structural_hash (root tree) with Some h => h | None => 0%Z end
  | None => 0%Z
  end.


(** [tokens[:len(p)] == p]: the sequence goes through the node at path
    [p]. *)
Fixpoint starts_with (p tokens : list Z) : bool :=
  match p, tokens with
  | [], _ => true
  | t :: p', t' :: tokens' => Z.eqb t t' && starts_with p' tokens'
  | _ :: _, [] => false
  end.

(** The [unique_id]s of a subtree, the node's own first. *)
Fixpoint ids (n : TreeNode) : list nat :=
  unique_id n :: flat_map (fun kc : Z * TreeNode => ids (snd kc)) (children n).

(** Split a goal into its conjuncts, and nothing else. *)
Ltac split_and := repeat match goal with |- _ /\ _ => split end.

(** ** Dict lemmas *)

Lemma dict_get_set (V : Type) (k k' : Z) (v : V) (d : list (Z * V)) :
  dict_get k' (dict_set k v d) =
  if Z.eqb k' k then Some v else dict_get k' d.
Proof.
  induction d as [|[k0 v0] d IH]; simpl.
  - destruct (Z.eqb k' k); reflexivity.
  - destruct (Z.eqb_spec k k0) as [->|Hk]; simpl.
    + destruct (Z.eqb k' k0); reflexivity.
    + rewrite IH. destruct (Z.eqb_spec k' k0) as [->|Hk'].
      * destruct (Z.eqb_spec k0 k); [congruence | reflexivity].
      * reflexivity.
Qed.

Lemma dict_get_None (V : Type) (k : Z) (d : list (Z * V)) :
  dict_get k d = None <-> ~ In k (keys d).
Proof.
  induction d as [|[k0 v0] d IH]; simpl.
  - tauto.
  - destruct (Z.eqb_spec k k0) as [->|Hk].
    + split; [discriminate | intros H; exfalso; apply H; now left].
    + rewrite IH. split; [intros H [E|Hin]; [congruence | tauto] | tauto].
Qed.

Lemma dict_get_In (V : Type) (k : Z) (v : V) (d : list (Z * V)) :
  dict_get k d = Some v -> In (k, v) d.
Proof.
  induction d as [|[k0 v0] d IH]; simpl; [discriminate|].
  destruct (Z.eqb_spec k k0) as [->|Hk].
  - intros [= ->]. now left.
  - intros H. right. now apply IH.
Qed.

Lemma In_dict_get (V : Type) (k : Z) (v : V) (d : list (Z * V)) :
  NoDup (keys d) -> In (k, v) d -> dict_get k d = Some v.
Proof.
  induction d as [|[k0 v0] d IH]; simpl; [tauto|].
  intros Hnd [E|Hin].
  - inversion E; subst. now rewrite Z.eqb_refl.
  - inversion Hnd as [|? ? Hnotin Hnd']; subst.
    destruct (Z.eqb_spec k k0) as [->|Hk].
    + exfalso. apply Hnotin. change (In (fst (k0, v)) (map fst d)).
      now apply in_map.
    + now apply IH.
Qed.

Lemma keys_dict_set_old (V : Type) (k : Z) (v : V) (d : list (Z * V)) :
  In k (keys d) -> keys (dict_set k v d) = keys d.
Proof.
  unfold keys. induction d as [|[k0 v0] d IH]; simpl; [tauto|].
  intros Hin. destruct (Z.eqb_spec k k0) as [->|Hk]; simpl; [reflexivity|].
  f_equal. apply IH. destruct Hin; [congruence | assumption].
Qed.

Lemma keys_dict_set_new (V : Type) (k : Z) (v : V) (d : list (Z * V)) :
  ~ In k (keys d) -> keys (dict_set k v d) = keys d ++ [k].
Proof.
  unfold keys. induction d as [|[k0 v0] d IH]; simpl; [reflexivity|].
  intros Hout. destruct (Z.eqb_spec k k0) as [->|Hk]; simpl; [tauto|].
  f_equal. apply IH. tauto.
Qed.

Lemma NoDup_keys_dict_set (V : Type) (k : Z) (v : V) (d : list (Z * V)) :
  NoDup (keys d) -> NoDup (keys (dict_set k v d)).
Proof.
  intros Hnd. destruct (in_dec Z.eq_dec k (keys d)) as [Hin|Hout].
  - now rewrite keys_dict_set_old.
  - rewrite keys_dict_set_new by assumption.
    apply NoDup_app; [assumption | repeat constructor; simpl; tauto |].
    intros x Hx [E|[]]. subst x. contradiction.
Qed.

Lemma In_dict_set (V : Type) (k k' : Z) (v v' : V) (d : list (Z * V)) :
  In (k', v') (dict_set k v d) -> (k', v') = (k, v) \/ In (k', v') d.
Proof.
  induction d as [|[k0 v0] d IH]; simpl.
  - intros [E|F]; [now left | destruct F].
  - destruct (Z.eqb k k0); simpl; intros [E|Hin]; auto.
    destruct (IH Hin); auto.
Qed.

Lemma dict_get_map (V W : Type) (f : V -> W) (k : Z) (d : list (Z * V)) :
  dict_get k (map (fun kv => (fst kv, f (snd kv))) d) =
  option_map f (dict_get k d).
Proof.
  induction d as [|[k0 v0] d IH]; simpl; [reflexivity|].
  destruct (Z.eqb k k0); [reflexivity | exact IH].
Qed.

Lemma keys_map (V W : Type) (f : V -> W) (d : list (Z * V)) :
  keys (map (fun kv => (fst kv, f (snd kv))) d) = keys d.
Proof.
  unfold keys. rewrite map_map. reflexivity.
Qed.

(** ** Induction over the nodes of a tree *)

Definition TreeNode_ind' (P : TreeNode -> Prop)
    (H : forall n, (forall t c, In (t, c) (children n) -> P c) -> P n)
    : forall n, P n :=
  fix IH (n : TreeNode) : P n :=
    H n ((fix each (cs : list (Z * TreeNode))
            : forall t c, In (t, c) cs -> P c :=
            match cs with
            | [] => fun t c Hin => match Hin with end
            | kc :: rest => fun t c Hin =>
                match Hin with
                | or_introl E =>
                    eq_ind (snd kc) P (IH (snd kc)) c (f_equal snd E)
                | or_intror Hin' => each rest t c Hin'
                end
            end) (children n)).

(** ** Construction builds what [repr] says *)

Lemma sub_app (t : Z) (L L' : list arrival) :
  sub t (L ++ L') = sub t L ++ sub t L'.
Proof.
  induction L as [|[[|t' s] o] L IH]; simpl; auto.
  destruct (Z.eqb t t'); simpl; [now rewrite IH | assumption].
Qed.

Lemma has_nil_app (L L' : list arrival) :
  has_nil (L ++ L') = has_nil L || has_nil L'.
Proof. apply existsb_app. Qed.

Lemma last_score_snoc (L : list arrival) (a : arrival) :
  last_score (L ++ [a]) = score_step (last_score L) a.
Proof. unfold last_score. now rewrite fold_left_app. Qed.

Lemma assign_score_eq (i : nat) (scores : option (list pyfloat))
    (node : TreeNode) :
  assign_score i scores node =
  Some (match score_at scores i with
        | Some s => set_score node s
        | None => node
        end).
Proof.
  unfold assign_score, score_at. destruct scores as [ss|]; [|reflexivity].
  destruct (Nat.ltb_spec i (List.length ss)) as [Hlt|Hge].
  - destruct (nth_error ss i) eqn:E; [reflexivity|].
    apply nth_error_None in E. lia.
  - apply nth_error_None in Hge. now rewrite Hge.
Qed.

Lemma repr_set_count (n : TreeNode) (c : nat) (L : list arrival) :
  repr n L -> repr (set_count n c) L.
Proof. intros H. inversion H; subst. now constructor. Qed.

Lemma repr_new (tok : token) (uid : nat) : repr (new_TreeNode tok uid) [].
Proof. constructor; simpl; auto; try constructor; discriminate. Qed.

Lemma fresh_new (tok : token) (uid : nat) : fresh (new_TreeNode tok uid).
Proof. constructor; simpl; [reflexivity | intros t c []]. Qed.

Lemma fresh_set_count (n : TreeNode) (c : nat) :
  fresh n -> fresh (set_count n c).
Proof. intros H. inversion H; subst. now constructor. Qed.

Lemma walk_repr (tokens : list Z) :
  forall (i : nat) (scores : option (list pyfloat)) (n : TreeNode)
         (next : nat) (L : list arrival),
    repr n L ->
    exists n' next',
      walk tokens i scores n next = Some (n', next') /\
      repr n' (L ++ [(tokens, score_at scores i)]) /\
      count n' = count n /\ token_id n' = token_id n /\
      (fresh n -> fresh n').
Proof.
  induction tokens as [|t rest IH]; intros i scores n next L Hr.
  - simpl. rewrite assign_score_eq.
    inversion Hr as [? ? He Hs Hnd Hcov Hch]; subst.
    eexists _, _. split; [reflexivity|].
    assert (Hfr : forall m, fresh (set_end n) -> m = set_end n \/
               (exists s, m = set_score (set_end n) s) -> fresh m).
    { intros m Hf [->|[s ->]]; [assumption|].
      inversion Hf; subst. now constructor. }
    assert (Hfe : fresh n -> fresh (set_end n)).
    { intros Hf. inversion Hf; subst. now constructor. }
    destruct (score_at scores i) as [s|]; simpl.
    + split_and; auto.
      * constructor; simpl; auto.
        -- rewrite has_nil_app. simpl. now rewrite orb_true_r.
        -- now rewrite last_score_snoc.
        -- intros t Hg. rewrite sub_app, (Hcov t Hg). reflexivity.
        -- intros t c Hg. rewrite sub_app. simpl. rewrite app_nil_r.
           now apply Hch.
      * intros Hf. apply Hfr with (m := set_score (set_end n) s); eauto.
    + split_and; auto.
      constructor; simpl; auto.
      * rewrite has_nil_app. simpl. now rewrite orb_true_r.
      * rewrite last_score_snoc. simpl. assumption.
      * intros t Hg. rewrite sub_app, (Hcov t Hg). reflexivity.
      * intros t c Hg. rewrite sub_app. simpl. rewrite app_nil_r.
        now apply Hch.
  - inversion Hr as [? ? He Hs Hnd Hcov Hch]; subst.
    assert (Hc : exists c0 next1,
               match dict_get t (children n) with
               | Some c => (c, next)
               | None => (new_TreeNode (Tok t) next, S next)
               end = (c0, next1) /\
               token_id c0 = Tok t /\ count c0 = List.length (sub t L) /\
               repr c0 (sub t L) /\ (fresh n -> fresh c0)).
    { destruct (dict_get t (children n)) as [c|] eqn:Hg.
      - destruct (Hch t c Hg) as (Ht & Hcnt & _ & Hrc).
        exists c, next. split_and; auto.
        intros Hf. inversion Hf; subst. eauto using dict_get_In.
      - exists (new_TreeNode (Tok t) next), (S next).
        rewrite (Hcov t Hg). split_and; auto using repr_new, fresh_new. }
    destruct Hc as (c0 & next1 & Heq & Ht & Hcnt & Hrc & Hfc).
    destruct (IH i scores (set_count c0 (count c0 + 1)) next1 (sub t L)
                (repr_set_count _ Hrc))
      as (c' & next2 & Hw & Hr' & Hcnt' & Ht' & Hf').
    simpl. rewrite Heq, Hw. eexists _, _. split; [reflexivity|].
    split_and; auto.
    + constructor; simpl.
      * rewrite has_nil_app. simpl. now rewrite orb_false_r.
      * rewrite last_score_snoc. simpl. assumption.
      * now apply NoDup_keys_dict_set.
      * intros t0. rewrite dict_get_set.
        destruct (Z.eqb_spec t0 t) as [->|Hne]; [discriminate|].
        intros Hg. rewrite sub_app, (Hcov t0 Hg). simpl.
        destruct (Z.eqb_spec t0 t); [contradiction | reflexivity].
      * intros t0 c1. rewrite dict_get_set, sub_app. simpl.
        destruct (Z.eqb_spec t0 t) as [->|Hne].
        -- intros [= <-]. simpl in *. split_and.
           ++ congruence.
           ++ rewrite length_app. simpl. lia.
           ++ intros E. apply app_eq_nil in E. destruct E; discriminate.
           ++ assumption.
        -- intros Hg. rewrite app_nil_r. now apply Hch.
    + intros Hf. inversion Hf as [? Hh Hfch]; subst. constructor; simpl; auto.
      intros t0 c1 Hin. destruct (In_dict_set _ _ _ _ _ Hin) as [E|Hin'].
      * injection E as -> ->. apply Hf'. apply fresh_set_count. auto.
      * eapply Hfch; eauto.
Qed.

Lemma build_loop_repr (completions : list (list Z)) :
  forall (i : nat) (scores : option (list pyfloat)) (n : TreeNode)
         (next : nat) (L : list arrival),
    repr n L ->
    exists n' next',
      build_loop i completions scores n next = Some (n', next') /\
      repr n' (L ++ arrivals_from i completions scores) /\
      count n' = count n /\ token_id n' = token_id n /\
      (fresh n -> fresh n').
Proof.
  induction completions as [|tokens rest IH]; intros i scores n next L Hr.
  - simpl. rewrite app_nil_r. eauto 10.
  - destruct (walk_repr tokens i scores next Hr)
      as (n1 & next1 & Hw & Hr1 & Hc1 & Ht1 & Hf1).
    destruct (IH (S i) scores n1 next1 _ Hr1)
      as (n2 & next2 & Hb & Hr2 & Hc2 & Ht2 & Hf2).
    simpl. rewrite Hw, Hb. exists n2, next2.
    rewrite <- app_assoc in Hr2. simpl in Hr2.
    split_and; auto; congruence.
Qed.

(** Construction never raises, and the tree stands for the inserted
    sequences. *)
Lemma build_tree_repr (completions : list (list Z))
    (scores : option (list pyfloat)) (next : nat) :
  exists built next',
    _build_tree completions scores next = Some (built, next') /\
    repr built (arrivals completions scores) /\
    count built = List.length completions /\ token_id built = ROOT /\
    fresh built.
Proof.
  unfold _build_tree, arrivals.
  destruct (build_loop_repr completions 0 scores (S next)
              (repr_set_count (List.length completions) (repr_new ROOT next)))
    as (n' & next' & Hb & Hr & Hc & Ht & Hf).
  exists n', next'. split_and; auto.
  apply Hf. apply fresh_set_count, fresh_new.
Qed.

(** ** The two passes leave the constructed tree as it is *)

Lemma hashes_unfold (node : TreeNode) :
  _compute_structural_hashes node =
  match structural_hash node with
  | Some h => (h, node)
  | None =>
      let results :=
        map (fun kc : Z * TreeNode =>
               (fst kc, _compute_structural_hashes (snd kc)))
            (children node) in
      let child_hashes :=
        map (fun r : Z * (Z * TreeNode) => (fst r, fst (snd r)))
            (sorted results) in
      let children' :=
        map (fun r : Z * (Z * TreeNode) => (fst r, snd (snd r))) results in
      let h := _stable_hash (hash_components node child_hashes) in
      (h, set_hash node children' h)
  end.
Proof. destruct node; reflexivity. Qed.

Lemma stats_unfold (node : TreeNode) :
  _compute_leaf_stats node =
  if is_end_of_completion node then
    let score_sum := match score node with Some s => s | None => fzero end in
    ((1, score_sum), set_stats node (children node) 1 score_sum)
  else
    let results :=
      map (fun kc : Z * TreeNode => (fst kc, _compute_leaf_stats (snd kc)))
          (children node) in
    let '(total_leaves, score_sum) :=
      fold_left
        (fun (acc : nat * pyfloat) (r : Z * ((nat * pyfloat) * TreeNode)) =>
           (fst acc + fst (fst (snd r)), fadd (snd acc) (snd (fst (snd r)))))
        results (0, fzero) in
    let children' :=
      map (fun r : Z * ((nat * pyfloat) * TreeNode) => (fst r, snd (snd r)))
          results in
    ((total_leaves, score_sum),
     set_stats node children' total_leaves score_sum).
Proof. destruct node; reflexivity. Qed.

Lemma core_unfold (n : TreeNode) :
  core n =
  mkTreeNode (token_id n) (unique_id n)
    (map (fun kc : Z * TreeNode => (fst kc, core (snd kc))) (children n))
    (is_end_of_completion n) (score n) (count n) None 0 fzero.
Proof. destruct n; reflexivity. Qed.

Lemma map_children_ext (A : Type) (f g : TreeNode -> A)
    (d : list (Z * TreeNode)) :
  (forall t c, In (t, c) d -> f c = g c) ->
  map (fun kc : Z * TreeNode => (fst kc, f (snd kc))) d =
  map (fun kc : Z * TreeNode => (fst kc, g (snd kc))) d.
Proof.
  intros H. apply map_ext_in. intros [t c] Hin. simpl. f_equal. eauto.
Qed.

Lemma hashes_core (n : TreeNode) :
  core (snd (_compute_structural_hashes n)) = core n.
Proof.
  induction n as [n IH] using TreeNode_ind'.
  rewrite hashes_unfold. destruct (structural_hash n); [reflexivity|].
  cbv zeta. cbn [snd]. rewrite (core_unfold (set_hash _ _ _)), (core_unfold n).
  cbn [token_id unique_id children is_end_of_completion score count set_hash].
  f_equal. rewrite !map_map. cbn [fst snd].
  apply (map_children_ext
           (fun c => core (snd (_compute_structural_hashes c))) core).
  exact IH.
Qed.

Lemma stats_core (n : TreeNode) :
  core (snd (_compute_leaf_stats n)) = core n.
Proof.
  induction n as [n IH] using TreeNode_ind'.
  rewrite stats_unfold. destruct (is_end_of_completion n) eqn:He.
  - cbv zeta. cbn [snd]. rewrite (core_unfold (set_stats _ _ _ _)), (core_unfold n).
    cbn [token_id unique_id children is_end_of_completion score count set_stats].
    reflexivity.
  - cbv zeta.
    destruct (fold_left _ _ _) as [tl ss]. cbn [snd].
    rewrite (core_unfold (set_stats _ _ _ _)), (core_unfold n).
    cbn [token_id unique_id children is_end_of_completion score count set_stats].
    f_equal. rewrite !map_map. cbn [fst snd].
    apply (map_children_ext
             (fun c => core (snd (_compute_leaf_stats c))) core).
    exact IH.
Qed.

Lemma find_path_core (p : list Z) :
  forall n, find_path (core n) p = option_map core (find_path n p).
Proof.
  induction p as [|t p IH]; intros n; [reflexivity|].
  simpl. rewrite (core_unfold n) at 1.
  cbn [children]. rewrite dict_get_map.
  destruct (dict_get t (children n)) as [c|]; simpl; auto.
Qed.

Lemma sum_counts_core (n : TreeNode) :
  sum_counts (children (core n)) = sum_counts (children n).
Proof.
  rewrite core_unfold. cbn [children]. unfold sum_counts.
  induction (children n) as [|[t c] d IH]; simpl; [reflexivity|].
  rewrite IH, (core_unfold c). reflexivity.
Qed.

Lemma count_core (n : TreeNode) : count (core n) = count n.
Proof. now rewrite core_unfold. Qed.

Lemma repr_core (n : TreeNode) :
  forall L, repr n L <-> repr (core n) L.
Proof.
  induction n as [n IH] using TreeNode_ind'. intros L.
  assert (Hk : keys (children (core n)) = keys (children n)).
  { rewrite core_unfold. cbn [children]. apply keys_map. }
  assert (Hg : forall t, dict_get t (children (core n)) =
                         option_map core (dict_get t (children n))).
  { intros t. rewrite core_unfold. cbn [children]. apply dict_get_map. }
  assert (He : is_end_of_completion (core n) = is_end_of_completion n)
    by now rewrite core_unfold.
  assert (Hs : score (core n) = score n) by now rewrite core_unfold.
  split; intros H; inversion H as [? ? H1 H2 H3 H4 H5]; subst; constructor.
  - congruence.
  - congruence.
  - now rewrite Hk.
  - intros t. rewrite Hg. destruct (dict_get t (children n)) eqn:E;
      [discriminate | auto].
  - intros t c. rewrite Hg.
    destruct (dict_get t (children n)) as [c0|] eqn:E; [|discriminate].
    intros [= <-]. destruct (H5 t c0 E) as (A & B & C & D).
    rewrite (core_unfold c0) at 1 2. cbn [token_id count].
    split_and; auto.
    apply (IH t c0); [now apply dict_get_In | assumption].
  - congruence.
  - congruence.
  - now rewrite <- Hk.
  - intros t Hget. apply H4. now rewrite Hg, Hget.
  - intros t c Hget. specialize (H5 t (core c)).
    rewrite Hg, Hget in H5. destruct (H5 eq_refl) as (A & B & C & D).
    rewrite (core_unfold c) in A, B. cbn [token_id count] in A, B.
    split_and; auto.
    apply (IH t c); [now apply dict_get_In | assumption].
Qed.

(** What [CompletionTree.__init__] returns, in terms of the tree that
    construction built. *)
Lemma init_built (completions : list (list Z))
    (scores : option (list pyfloat)) :
  exists built next,
    _build_tree completions scores 0 = Some (built, next) /\
    CompletionTree_init completions scores =
      Some (mkCompletionTree
              (snd (_compute_leaf_stats
                      (snd (_compute_structural_hashes built))))
              (match scores with Some _ => true | None => false end) next) /\
    repr built (arrivals completions scores) /\
    count built = List.length completions /\ token_id built = ROOT /\
    fresh built.
Proof.
  destruct (build_tree_repr completions scores 0)
    as (built & next & Hb & Hr & Hc & Ht & Hf).
  exists built, next. unfold CompletionTree_init. rewrite Hb. auto 10.
Qed.

Lemma init_core (completions : list (list Z))
    (scores : option (list pyfloat)) (tree : CompletionTree) :
  CompletionTree_init completions scores = Some tree ->
  repr (core (root tree)) (arrivals completions scores) /\
  count (root tree) = List.length completions.
Proof.
  destruct (init_built completions scores)
    as (built & next & Hb & Hi & Hr & Hc & Ht & Hf).
  rewrite Hi. intros [= <-]. cbn [root].
  rewrite <- count_core, stats_core, hashes_core, count_core.
  split; [exact (proj1 (repr_core built _) Hr) | assumption].
Qed.

(** ** Counts *)

Lemma repr_find_path (p : list Z) :
  forall (n m : TreeNode) (L : list arrival),
    repr n L -> find_path n p = Some m ->
    repr m (sub_path p L) /\
    (p <> [] -> count m = List.length (sub_path p L) /\ sub_path p L <> []).
Proof.
  induction p as [|t p IH]; intros n m L Hr Hf; simpl in *.
  - injection Hf as <-. split; [assumption | congruence].
  - destruct (dict_get t (children n)) as [c|] eqn:Hg; [|discriminate].
    inversion Hr as [? ? _ _ _ _ Hch]; subst.
    destruct (Hch t c Hg) as (_ & Hcnt & Hne & Hrc).
    destruct (IH c m (sub t L) Hrc Hf) as [Hrm Hcm].
    split; [assumption|]. intros _. destruct p as [|t' p'].
    + simpl in *. injection Hf as <-. auto.
    + apply Hcm. discriminate.
Qed.

Lemma sub_cons_nil (t : Z) (a : arrival) (L : list arrival) :
  sub t (a :: L) = [] -> sub t L = [].
Proof.
  destruct a as [[|t' s] o]; simpl; auto.
  destruct (Z.eqb t t'); [discriminate | auto].
Qed.

Lemma list_sum_bump (f : Z -> nat) (t0 : Z) (ks : list Z) :
  NoDup ks -> In t0 ks ->
  list_sum (map (fun t => f t + (if Z.eqb t t0 then 1 else 0)) ks) =
  S (list_sum (map f ks)).
Proof.
  induction ks as [|k ks IH]; simpl; [tauto|].
  intros Hnd Hin. inversion Hnd as [|? ? Hout Hnd']; subst.
  destruct (Z.eqb_spec k t0) as [->|Hne].
  - assert (E : map (fun t => f t + (if Z.eqb t t0 then 1 else 0)) ks =
                map f ks).
    { apply map_ext_in. intros t Ht.
      destruct (Z.eqb_spec t t0); [congruence | lia]. }
    rewrite E. lia.
  - destruct Hin as [E|Hin]; [congruence|]. rewrite IH by assumption. lia.
Qed.

(** Every arrival either ends at the node or goes on to one child. *)
Lemma arrivals_split (ks : list Z) (L : list arrival) :
  NoDup ks -> (forall t, ~ In t ks -> sub t L = []) ->
  list_sum (map (fun t => List.length (sub t L)) ks) + count_nil L =
  List.length L.
Proof.
  intros Hnd. induction L as [|a L IH]; intros Hcov.
  - simpl. assert (E : list_sum (map (fun _ : Z => 0) ks) = 0).
    { clear. induction ks; simpl; auto. }
    cbn [sub List.length]. rewrite E. reflexivity.
  - assert (IH' := IH (fun t Ht => sub_cons_nil _ _ _ (Hcov t Ht))).
    destruct a as [[|t0 s] o].
    + unfold count_nil in *. simpl. lia.
    + assert (Hin : In t0 ks).
      { destruct (in_dec Z.eq_dec t0 ks) as [Hin|Hout]; [assumption|].
        specialize (Hcov t0 Hout). simpl in Hcov.
        rewrite Z.eqb_refl in Hcov. discriminate. }
      match goal with
      | |- list_sum (map ?f ks) + _ = _ =>
          rewrite (map_ext f
                     (fun t => List.length (sub t L) +
                               (if Z.eqb t t0 then 1 else 0)))
      end.
      2:{ intros t. simpl. destruct (Z.eqb t t0); simpl; lia. }
      rewrite list_sum_bump by assumption.
      unfold count_nil in *. simpl. lia.
Qed.

Lemma repr_counts (n : TreeNode) (L : list arrival) :
  repr n L -> sum_counts (children n) + count_nil L = List.length L.
Proof.
  intros Hr. inversion Hr as [? ? _ _ Hnd Hcov Hch]; subst.
  rewrite <- (arrivals_split L Hnd).
  - f_equal. unfold sum_counts, keys.
    assert (Hall : forall t c, In (t, c) (children n) ->
              count c = List.length (sub t L)).
    { intros t c Hin. apply (Hch t c). now apply In_dict_get. }
    clear - Hall. induction (children n) as [|[t c] d IH]; simpl; auto.
    rewrite (Hall t c) by now left. f_equal. apply IH.
    intros t' c' Hin. apply Hall. now right.
  - intros t Ht. apply Hcov. now apply dict_get_None.
Qed.

Definition path_eq_dec : forall p q : list Z, {p = q} + {p <> q} :=
  list_eq_dec Z.eq_dec.

Lemma count_nil_occ (L : list arrival) :
  count_nil L = count_occ path_eq_dec (map fst L) [].
Proof.
  unfold count_nil.
  induction L as [|[[|t s] o] L IH];
    cbn [filter ends_here fst map List.length].
  - reflexivity.
  - rewrite count_occ_cons_eq by reflexivity. now rewrite IH.
  - rewrite count_occ_cons_neq by discriminate. exact IH.
Qed.

Lemma count_occ_sub (t : Z) (p : list Z) (L : list arrival) :
  count_occ path_eq_dec (map fst (sub t L)) p =
  count_occ path_eq_dec (map fst L) (t :: p).
Proof.
  induction L as [|[[|t' s] o] L IH]; cbn [sub map fst].
  - reflexivity.
  - rewrite count_occ_cons_neq by discriminate. exact IH.
  - destruct (Z.eqb_spec t t') as [->|Hne]; cbn [map fst].
    + destruct (path_eq_dec s p) as [->|Hsp].
      * rewrite !count_occ_cons_eq by reflexivity. now rewrite IH.
      * rewrite !count_occ_cons_neq by congruence. exact IH.
    + rewrite count_occ_cons_neq by congruence. exact IH.
Qed.

Lemma count_nil_sub_path (p : list Z) :
  forall L, count_nil (sub_path p L) = count_occ path_eq_dec (map fst L) p.
Proof.
  induction p as [|t p IH]; intros L; simpl.
  - apply count_nil_occ.
  - rewrite IH. apply count_occ_sub.
Qed.

Lemma map_fst_arrivals (completions : list (list Z))
    (scores : option (list pyfloat)) :
  forall i, map fst (arrivals_from i completions scores) = completions.
Proof.
  induction completions as [|c cs IH]; intros i; simpl; [reflexivity|].
  now rewrite IH.
Qed.

Lemma length_arrivals (completions : list (list Z))
    (scores : option (list pyfloat)) :
  List.length (arrivals completions scores) = List.length completions.
Proof.
  unfold arrivals.
  rewrite <- (map_fst_arrivals completions scores 0) at 2.
  now rewrite length_map.
Qed.

(** C3.  In the tree that the constructor returns, the count of the root
    is the number of inserted sequences, and the count of every node is
    the sum of its children's counts plus the number of inserted
    sequences that are exactly the path to the node (for the root, the
    empty sequences). *)
Theorem count_children_plus_ends :
  forall (completions : list (list Z)) (scores : option (list pyfloat)),
  exists tree,
    CompletionTree_init completions scores = Some tree /\
    count (root tree) = List.length completions /\
    forall (p : list Z) (n : TreeNode),
      find_path (root tree) p = Some n ->
      count n =
      sum_counts (children n) + count_occ path_eq_dec completions p.
Proof.
  intros completions scores.
  destruct (init_built completions scores)
    as (built & next & _ & Hi & _). eexists. split; [exact Hi|].
  destruct (init_core _ _ Hi) as [Hr Hc]. split; [exact Hc|].
  intros p n Hf.
  assert (Hf' : find_path (core (root _)) p = Some (core n))
    by (rewrite find_path_core, Hf; reflexivity).
  destruct (repr_find_path p Hr Hf') as [Hrn Hcn].
  rewrite <- (count_core n), <- (sum_counts_core n).
  rewrite <- (map_fst_arrivals completions scores 0).
  rewrite <- count_nil_sub_path. fold (arrivals completions scores).
  rewrite (repr_counts Hrn).
  destruct p as [|t p].
  - simpl in *. injection Hf as <-.
    rewrite count_core, length_arrivals. exact Hc.
  - apply Hcn. discriminate.
Qed.

(** ** The statistics pass *)

Lemma stats_fields (n : TreeNode) :
  fst (_compute_leaf_stats n) =
  (descendant_leaf_count (snd (_compute_leaf_stats n)),
   descendant_score_sum (snd (_compute_leaf_stats n))).
Proof.
  rewrite stats_unfold. destruct (is_end_of_completion n); [reflexivity|].
  cbv zeta. destruct (fold_left _ _ _) as [tl ss]. reflexivity.
Qed.


Lemma stats_children (n : TreeNode) :
  children (snd (_compute_leaf_stats n)) =
  if is_end_of_completion n then children n
  else map (fun kc : Z * TreeNode =>
              (fst kc, snd (_compute_leaf_stats (snd kc)))) (children n).
Proof.
  rewrite stats_unfold. destruct (is_end_of_completion n); [reflexivity|].
  cbv zeta. destruct (fold_left _ _ _) as [tl ss]. cbn [snd set_stats children].
  rewrite map_map. reflexivity.
Qed.

Lemma stats_keeps (n : TreeNode) :
  is_end_of_completion (snd (_compute_leaf_stats n)) = is_end_of_completion n /\
  score (snd (_compute_leaf_stats n)) = score n /\
  structural_hash (snd (_compute_leaf_stats n)) = structural_hash n /\
  token_id (snd (_compute_leaf_stats n)) = token_id n.
Proof.
  rewrite stats_unfold. destruct (is_end_of_completion n) eqn:E.
  - cbn. auto.
  - cbv zeta. destruct (fold_left _ _ _) as [tl ss]. cbn. auto.
Qed.






(** ** The aggregate-score query *)

(** C5.  For the tree the constructor returns: [has_scores] tells whether
    a scores list was given; the query returns
    [descendant_score_sum / descendant_leaf_count] exactly when a scores
    list was given and the node's leaf count is not zero, and [None] in
    every other case; for an empty batch the root's answer is [None]. *)
Theorem score_percentage_cases :
  forall (completions : list (list Z)) (scores : option (list pyfloat)),
  exists tree,
    CompletionTree_init completions scores = Some tree /\
    has_scores tree = (match scores with Some _ => true | None => false end) /\
    (forall node,
       get_node_score_percentage tree node =
       match scores with
       | Some _ =>
           if Nat.eqb (descendant_leaf_count node) 0 then None
           else Some (fdiv_int (descendant_score_sum node)
                               (descendant_leaf_count node))
       | None => None
       end) /\
    (completions = [] ->
     descendant_leaf_count (root tree) = 0 /\
     get_node_score_percentage tree (root tree) = None).
Proof.
  intros completions scores.
  destruct (init_built completions scores) as (built & next & Hb & Hi & _).
  eexists. split; [exact Hi|]. cbn [has_scores root]. split; [reflexivity|].
  split.
  - intros node. unfold get_node_score_percentage. cbn [has_scores].
    destruct scores; reflexivity.
  - intros ->. cbn in Hb. injection Hb as <- <-.
    unfold get_node_score_percentage. cbn. split; [reflexivity|].
    destruct scores; reflexivity.
Qed.

(** ** Scores *)

Lemma score_fold_sub (t : Z) (p : list Z) (L : list arrival) :
  forall acc,
    fold_left
      (fun (acc : option pyfloat) (a : arrival) =>
         if list_eq_dec Z.eq_dec (fst a) p
         then match snd a with Some s => Some s | None => acc end
         else acc) (sub t L) acc =
    fold_left
      (fun (acc : option pyfloat) (a : arrival) =>
         if list_eq_dec Z.eq_dec (fst a) (t :: p)
         then match snd a with Some s => Some s | None => acc end
         else acc) L acc.
Proof.
  induction L as [|[[|t' s] o] L IH]; intros acc; cbn [sub fold_left fst snd].
  - reflexivity.
  - destruct (list_eq_dec Z.eq_dec [] (t :: p)); [discriminate | apply IH].
  - destruct (Z.eqb_spec t t') as [->|Hne]; cbn [fold_left fst snd].
    + rewrite IH.
      destruct (list_eq_dec Z.eq_dec s p) as [Esp|Hsp];
        destruct (list_eq_dec Z.eq_dec (t' :: s) (t' :: p)) as [E|E];
        congruence.
    + rewrite IH.
      destruct (list_eq_dec Z.eq_dec (t' :: s) (t :: p)) as [E|E];
        congruence.
Qed.

Lemma last_score_nil (L : list arrival) : last_score L = last_score_at [] L.
Proof.
  unfold last_score, last_score_at. generalize (@None pyfloat).
  induction L as [|[[|t s] o] L IH]; intros acc; cbn [fold_left fst snd].
  - reflexivity.
  - destruct (list_eq_dec Z.eq_dec [] []); [|congruence].
    destruct o; apply IH.
  - destruct (list_eq_dec Z.eq_dec (t :: s) []); [discriminate | apply IH].
Qed.

Lemma last_score_sub_path (p : list Z) :
  forall L, last_score (sub_path p L) = last_score_at p L.
Proof.
  induction p as [|t p IH]; intros L; cbn [sub_path].
  - apply last_score_nil.
  - rewrite IH. apply score_fold_sub.
Qed.

Lemma score_fold_keep (p : list Z) (L : list arrival) :
  forall acc,
    (forall a, In a L -> fst a = p -> snd a = None) ->
    fold_left
      (fun (acc : option pyfloat) (a : arrival) =>
         if list_eq_dec Z.eq_dec (fst a) p
         then match snd a with Some s => Some s | None => acc end
         else acc) L acc = acc.
Proof.
  induction L as [|a L IH]; intros acc H; [reflexivity|].
  cbn [fold_left]. rewrite IH by (intros; apply H; [now right | assumption]).
  destruct (list_eq_dec Z.eq_dec (fst a) p) as [E|E]; [|reflexivity].
  rewrite (H a (or_introl eq_refl) E). reflexivity.
Qed.

Lemma last_score_at_none (p : list Z) (L : list arrival) :
  (forall a, In a L -> fst a = p -> snd a = None) ->
  last_score_at p L = None.
Proof. apply score_fold_keep. Qed.

Lemma last_score_at_last (p : list Z) (s : pyfloat) (L1 L2 : list arrival) :
  (forall a, In a L2 -> fst a = p -> snd a = None) ->
  last_score_at p (L1 ++ (p, Some s) :: L2) = Some s.
Proof.
  intros H. unfold last_score_at. rewrite fold_left_app. cbn [fold_left fst snd].
  destruct (list_eq_dec Z.eq_dec p p); [|congruence].
  now apply score_fold_keep.
Qed.

Lemma nth_error_arrivals (completions : list (list Z))
    (scores : option (list pyfloat)) :
  forall k i,
    nth_error (arrivals_from k completions scores) i =
    option_map (fun c => (c, score_at scores (k + i))) (nth_error completions i).
Proof.
  induction completions as [|c cs IH]; intros k i.
  - destruct i; reflexivity.
  - destruct i as [|i]; cbn [arrivals_from nth_error option_map].
    + now rewrite Nat.add_0_r.
    + rewrite IH. now rewrite Nat.add_succ_r.
Qed.

Lemma In_sub_path (p s : list Z) (o : option pyfloat) :
  forall L, In (p ++ s, o) L -> In (s, o) (sub_path p L).
Proof.
  induction p as [|t p IH]; intros L Hin; [exact Hin|].
  cbn [sub_path]. apply IH. clear IH.
  induction L as [|[[|t' s'] o'] L IHL]; cbn [sub].
  - destruct Hin.
  - destruct Hin as [E|Hin]; [discriminate | auto].
  - destruct Hin as [E|Hin].
    + injection E as -> -> ->. rewrite Z.eqb_refl. now left.
    + destruct (Z.eqb t t'); [right|]; auto.
Qed.

Lemma repr_path_exists (p : list Z) :
  forall (n : TreeNode) (L : list arrival),
    repr n L -> sub_path p L <> [] ->
    exists m, find_path n p = Some m.
Proof.
  induction p as [|t p IH]; intros n L Hr Hne; [now exists n|].
  cbn [find_path sub_path] in *.
  inversion Hr as [? ? _ _ _ Hcov Hch]; subst.
  destruct (dict_get t (children n)) as [c|] eqn:Hg.
  - destruct (Hch t c Hg) as (_ & _ & _ & Hrc). eauto.
  - rewrite (Hcov t Hg) in Hne. exfalso. apply Hne.
    clear. induction p; auto.
Qed.

(** The node an inserted sequence ends at. *)
Lemma repr_terminal (n : TreeNode) (L : list arrival) (tokens : list Z)
    (o : option pyfloat) :
  repr n L -> In (tokens, o) L ->
  exists m, find_path n tokens = Some m /\
            is_end_of_completion m = true /\
            score m = last_score_at tokens L.
Proof.
  intros Hr Hin.
  assert (Hin' : In ([], o) (sub_path tokens L)).
  { apply In_sub_path. now rewrite app_nil_r. }
  destruct (repr_path_exists tokens Hr) as [m Hm].
  { intros E. rewrite E in Hin'. destruct Hin'. }
  exists m. split; [assumption|].
  destruct (repr_find_path tokens Hr Hm) as [Hrm _].
  inversion Hrm as [? ? He Hs _ _ _]; subst.
  rewrite He, Hs, last_score_sub_path. split; [|reflexivity].
  apply existsb_exists. exists ([], o). auto.
Qed.

Lemma find_path_core_inv (r : TreeNode) (p : list Z) (m : TreeNode) :
  find_path (core r) p = Some m ->
  exists n, find_path r p = Some n /\ m = core n.
Proof.
  rewrite find_path_core. destruct (find_path r p) as [n|]; [|discriminate].
  intros [= <-]. eauto.
Qed.

(** C7.  Construction with any scores list, in particular one shorter
    than the list of sequences, returns a tree.  Every inserted sequence
    ends at a node of that tree, marked terminal.  A sequence whose index
    is within the scores list sets the score of that node, and the last
    such sequence ending there decides it; sequences beyond the end of the
    scores list set nothing, so a node that only they end at has no
    score. *)
Theorem short_scores_tolerated :
  forall (completions : list (list Z)) (ss : list pyfloat),
  exists tree,
    CompletionTree_init completions (Some ss) = Some tree /\
    forall (i : nat) (tokens : list Z),
      nth_error completions i = Some tokens ->
      exists n,
        find_path (root tree) tokens = Some n /\
        is_end_of_completion n = true /\
        (forall s,
           nth_error ss i = Some s ->
           (forall j, i < j -> j < List.length ss ->
                      nth_error completions j <> Some tokens) ->
           score n = Some s) /\
        ((forall j, j < List.length ss ->
                    nth_error completions j <> Some tokens) ->
         score n = None).
Proof.
  intros completions ss.
  destruct (init_built completions (Some ss)) as (built & next & _ & Hi & _).
  eexists. split; [exact Hi|].
  destruct (init_core _ _ Hi) as [Hr _]. cbn [root] in *.
  intros i tokens Hi_tok.
  set (L := arrivals completions (Some ss)) in *.
  assert (Hnth : forall j, nth_error L j =
             option_map (fun c => (c, nth_error ss j)) (nth_error completions j)).
  { intros j. unfold L, arrivals. now rewrite nth_error_arrivals. }
  assert (Hin : In (tokens, nth_error ss i) L).
  { apply nth_error_In with i. now rewrite Hnth, Hi_tok. }
  destruct (repr_terminal _ _ Hr Hin) as (m & Hm & He & Hs).
  destruct (find_path_core_inv _ _ Hm) as (n & Hn & ->).
  exists n. split; [exact Hn|].
  rewrite (core_unfold n) in He, Hs. cbn [is_end_of_completion score] in He, Hs.
  split; [exact He|]. rewrite Hs. split.
  - intros s Hsi Hlast.
    destruct (@nth_error_split _ L i (tokens, Some s)) as (L1 & L2 & HL & Hlen).
    { now rewrite Hnth, Hi_tok, Hsi. }
    rewrite HL. apply last_score_at_last.
    intros [c o] Hin2 Hc. cbn [fst snd] in *. subst c.
    destruct (In_nth_error _ _ Hin2) as [k Hk].
    assert (Hk' : nth_error L (S i + k) = Some (tokens, o)).
    { rewrite HL, nth_error_app2 by lia.
      replace (S i + k - List.length L1) with (S k) by lia. exact Hk. }
    rewrite Hnth in Hk'.
    destruct (nth_error completions (S i + k)) as [c|] eqn:Hc; [|discriminate].
    injection Hk' as -> <-.
    destruct (Nat.lt_ge_cases (S i + k) (List.length ss)) as [Hlt|Hge].
    + exfalso. apply (Hlast (S i + k)); [lia | assumption | assumption].
    + exact (proj2 (nth_error_None ss (S i + k)) Hge).
  - intros Hnone. apply last_score_at_none.
    intros [c o] Hin2 Hc. cbn [fst snd] in *. subst c.
    destruct (In_nth_error _ _ Hin2) as [k Hk].
    rewrite Hnth in Hk.
    destruct (nth_error completions k) as [c|] eqn:Hc; [|discriminate].
    injection Hk as -> <-.
    destruct (Nat.lt_ge_cases k (List.length ss)) as [Hlt|Hge].
    + exfalso. now apply (Hnone k).
    + exact (proj2 (nth_error_None ss k) Hge).
Qed.

(** ** What one insertion leaves alone *)

Lemma find_path_set_count (c : TreeNode) (k : nat) (q : list Z) (m : TreeNode) :
  find_path c q = Some m ->
  exists m0, find_path (set_count c k) q = Some m0 /\
             score m0 = score m /\
             is_end_of_completion m0 = is_end_of_completion m.
Proof.
  destruct q as [|t q]; cbn.
  - intros [= <-]. eauto.
  - intros H. eauto.
Qed.

Lemma walk_frame (tokens : list Z) (i : nat) (scores : option (list pyfloat)) :
  forall (n : TreeNode) (next : nat) (n' : TreeNode) (next' : nat),
    walk tokens i scores n next = Some (n', next') ->
    (exists x, find_path n' tokens = Some x /\
               is_end_of_completion x = true) /\
    forall (p : list Z) (m : TreeNode),
      find_path n p = Some m ->
      exists m',
        find_path n' p = Some m' /\
        (is_end_of_completion m = true -> is_end_of_completion m' = true) /\
        (p <> tokens \/ score_at scores i = None -> score m' = score m).
Proof.
  induction tokens as [|t rest IH]; intros n next n' next' Hw.
  - cbn [walk] in Hw. rewrite assign_score_eq in Hw. injection Hw as <- <-.
    split.
    + eexists. split; [reflexivity|]. destruct (score_at scores i); reflexivity.
    + intros [|t0 q] m Hf.
      * injection Hf as <-. eexists. split; [reflexivity|].
        split; [destruct (score_at scores i); reflexivity|].
        intros [H|H]; [congruence|]. now rewrite H.
      * exists m. split; [|split; [auto | reflexivity]].
        cbn [find_path] in *. destruct (score_at scores i); exact Hf.
  - cbn [walk] in Hw.
    destruct (dict_get t (children n)) as [c|] eqn:Hg.
    + destruct (walk rest i scores (set_count c (count c + 1)) next)
        as [[child' next2]|] eqn:Hwc; [|discriminate].
      injection Hw as <- <-.
      destruct (IH _ _ _ _ Hwc) as [(x & Hx & Hxe) Hfr].
      split.
      * exists x. cbn [find_path set_children children].
        rewrite dict_get_set, Z.eqb_refl. auto.
      * intros [|t0 q] m Hf.
        -- injection Hf as <-. eexists. split; [reflexivity|].
           split; [auto | reflexivity].
        -- cbn [find_path set_children children] in *.
           rewrite dict_get_set.
           destruct (Z.eqb_spec t0 t) as [->|Hne]; [|eauto].
           rewrite Hg in Hf.
           destruct (find_path_set_count c (count c + 1) q Hf)
             as (m0 & Hm0 & Hs0 & He0).
           destruct (Hfr q m0 Hm0) as (m' & Hm' & He' & Hs').
           exists m'. split; [assumption|]. rewrite <- He0, <- Hs0.
           split; [assumption|].
           intros [H|H]; apply Hs'; [left; congruence | now right].
    + destruct (walk rest i scores
                  (set_count (new_TreeNode (Tok t) next)
                             (count (new_TreeNode (Tok t) next) + 1)) (S next))
        as [[child' next2]|] eqn:Hwc; [|discriminate].
      injection Hw as <- <-.
      destruct (IH _ _ _ _ Hwc) as [(x & Hx & Hxe) _].
      split.
      * exists x. cbn [find_path set_children children].
        rewrite dict_get_set, Z.eqb_refl. auto.
      * intros [|t0 q] m Hf.
        -- injection Hf as <-. eexists. split; [reflexivity|].
           split; [auto | reflexivity].
        -- cbn [find_path set_children children] in *.
           rewrite dict_get_set.
           destruct (Z.eqb_spec t0 t) as [->|Hne]; [|eauto].
           rewrite Hg in Hf. discriminate.
Qed.

(** C10.  One pass of the insertion loop, for sequence [i] with tokens
    [tokens], keeps every node that was there, never clears a terminal
    flag, and marks the node at the end of [tokens] terminal.  It changes
    a score only at that node and only when [i] is within the scores
    list: a sequence beyond the end of the scores list leaves the score
    of the node it ends at as an earlier sequence set it. *)
Theorem unscored_termination_keeps_score :
  forall (tokens : list Z) (i : nat) (scores : option (list pyfloat))
         (r : TreeNode) (next : nat) (r' : TreeNode) (next' : nat),
    walk tokens i scores r next = Some (r', next') ->
    (exists x, find_path r' tokens = Some x /\
               is_end_of_completion x = true) /\
    (forall (p : list Z) (m : TreeNode),
       find_path r p = Some m ->
       exists m',
         find_path r' p = Some m' /\
         (is_end_of_completion m = true -> is_end_of_completion m' = true) /\
         (score m' <> score m ->
          p = tokens /\
          exists ss, scores = Some ss /\ i < List.length ss)) /\
    ((forall ss, scores = Some ss -> List.length ss <= i) ->
     forall (p : list Z) (m : TreeNode),
       find_path r p = Some m ->
       exists m', find_path r' p = Some m' /\ score m' = score m).
Proof.
  intros tokens i scores r next r' next' Hw.
  destruct (walk_frame _ _ _ _ _ Hw) as [Hend Hfr].
  split; [exact Hend|]. split.
  - intros p m Hf. destruct (Hfr p m Hf) as (m' & Hm' & He & Hs).
    exists m'. split; [assumption|]. split; [assumption|].
    intros Hne.
    destruct (list_eq_dec Z.eq_dec p tokens) as [Hp|Hp];
      [|exfalso; apply Hne, Hs; now left].
    split; [assumption|].
    destruct (score_at scores i) as [s|] eqn:Hsc;
      [|exfalso; apply Hne, Hs; now right].
    unfold score_at in Hsc. destruct scores as [ss|]; [|discriminate].
    exists ss. split; [reflexivity|]. apply nth_error_Some. congruence.
  - intros Hout p m Hf. destruct (Hfr p m Hf) as (m' & Hm' & _ & Hs).
    exists m'. split; [assumption|]. apply Hs. right.
    unfold score_at. destruct scores as [ss|]; [|reflexivity].
    apply nth_error_None. now apply Hout.
Qed.

(** ** Sorting by key *)

Lemma insert_item_map (V W : Type) (f : V -> W) (x : Z * V) (l : list (Z * V)) :
  insert_item (fst x, f (snd x)) (map (fun kv => (fst kv, f (snd kv))) l) =
  map (fun kv => (fst kv, f (snd kv))) (insert_item x l).
Proof.
  induction l as [|y l IH]; cbn [insert_item map fst]; [reflexivity|].
  destruct (Z.leb (fst x) (fst y)); cbn [map]; [reflexivity|].
  now rewrite IH.
Qed.

Lemma sorted_map (V W : Type) (f : V -> W) (l : list (Z * V)) :
  sorted (map (fun kv => (fst kv, f (snd kv))) l) =
  map (fun kv => (fst kv, f (snd kv))) (sorted l).
Proof.
  unfold sorted. induction l as [|x l IH]; cbn [map fold_right]; [reflexivity|].
  rewrite IH. apply insert_item_map.
Qed.

Lemma insert_item_perm (V : Type) (x : Z * V) (l : list (Z * V)) :
  Permutation (x :: l) (insert_item x l).
Proof.
  induction l as [|y l IH]; cbn [insert_item]; [reflexivity|].
  destruct (Z.leb (fst x) (fst y)); [reflexivity|].
  rewrite perm_swap. now apply perm_skip.
Qed.

Lemma sorted_perm (V : Type) (l : list (Z * V)) : Permutation l (sorted l).
Proof.
  unfold sorted. induction l as [|x l IH]; cbn [fold_right]; [reflexivity|].
  rewrite <- insert_item_perm. now apply perm_skip.
Qed.



(** ** The fingerprint pass *)

Lemma fingerprint_unfold (n : TreeNode) :
  fingerprint n = _stable_hash (node_components n).
Proof. destruct n; reflexivity. Qed.

Lemma hash_components_core (n : TreeNode) (l : list (Z * Z)) :
  hash_components (core n) l = hash_components n l.
Proof. rewrite core_unfold. reflexivity. Qed.

Lemma fingerprint_core (n : TreeNode) : fingerprint (core n) = fingerprint n.
Proof.
  induction n as [n IH] using TreeNode_ind'.
  rewrite !fingerprint_unfold. unfold node_components.
  rewrite hash_components_core. do 3 f_equal.
  rewrite (core_unfold n). cbn [children]. rewrite map_map. cbn [fst snd].
  apply (map_children_ext (fun c => fingerprint (core c)) fingerprint).
  exact IH.
Qed.

Lemma fingerprint_of_core (n m : TreeNode) :
  core n = core m -> fingerprint n = fingerprint m.
Proof.
  intros E. now rewrite <- (fingerprint_core n), E, fingerprint_core.
Qed.

Lemma sorted_map_fst (A B : Type) (l : list (Z * (A * B))) :
  map (fun r : Z * (A * B) => (fst r, fst (snd r))) (sorted l) =
  sorted (map (fun r : Z * (A * B) => (fst r, fst (snd r))) l).
Proof. symmetry. apply (sorted_map (@fst A B)). Qed.

Lemma hashes_fresh (n : TreeNode) :
  fresh n ->
  fst (_compute_structural_hashes n) = fingerprint n /\
  hashed (snd (_compute_structural_hashes n)).
Proof.
  induction n as [n IH] using TreeNode_ind'. intros Hf.
  inversion Hf as [? Hh Hch]; subst.
  assert (Hfp : fst (_compute_structural_hashes n) = fingerprint n).
  { rewrite hashes_unfold, Hh. cbv zeta. cbn [fst].
    rewrite fingerprint_unfold. unfold node_components. do 2 f_equal.
    rewrite sorted_map_fst, map_map. cbn [fst snd]. f_equal.
    apply (map_children_ext
             (fun c => fst (_compute_structural_hashes c)) fingerprint).
    intros t c Hin. apply (IH t c Hin). eauto. }
  split; [exact Hfp|].
  constructor.
  - rewrite (fingerprint_of_core _ n) by apply hashes_core.
    rewrite <- Hfp. rewrite hashes_unfold, Hh. reflexivity.
  - rewrite hashes_unfold, Hh. cbv zeta. cbn [snd set_hash children].
    rewrite map_map. cbn [fst snd]. intros t c Hin.
    apply in_map_iff in Hin. destruct Hin as ([t0 c0] & E & Hin0).
    injection E as <- <-. cbn [snd]. apply (IH t0 c0 Hin0). eauto.
Qed.

Lemma stats_hashed (n : TreeNode) :
  hashed n -> hashed (snd (_compute_leaf_stats n)).
Proof.
  induction n as [n IH] using TreeNode_ind'. intros Hh.
  inversion Hh as [? Hs Hch]; subst.
  destruct (stats_keeps n) as (_ & _ & Hsh & _).
  constructor.
  - rewrite Hsh, Hs. f_equal. symmetry.
    apply fingerprint_of_core, stats_core.
  - rewrite stats_children. destruct (is_end_of_completion n); [exact Hch|].
    intros t c Hin. apply in_map_iff in Hin.
    destruct Hin as ([t0 c0] & E & Hin0). injection E as <- <-.
    cbn [snd]. apply (IH t0 c0 Hin0). eauto.
Qed.

Lemma hashed_find_path (p : list Z) :
  forall n m, hashed n -> find_path n p = Some m -> hashed m.
Proof.
  induction p as [|t p IH]; intros n m Hh Hf; cbn [find_path] in Hf.
  - now injection Hf as <-.
  - destruct (dict_get t (children n)) as [c|] eqn:Hg; [|discriminate].
    inversion Hh as [? _ Hch]; subst.
    apply (IH c m); [|assumption]. apply (Hch t c). now apply dict_get_In.
Qed.

(** Every node of the tree the constructor returns caches its own
    fingerprint. *)
Lemma init_hashed (completions : list (list Z))
    (scores : option (list pyfloat)) (tree : CompletionTree) :
  CompletionTree_init completions scores = Some tree -> hashed (root tree).
Proof.
  destruct (init_built completions scores)
    as (built & next & _ & Hi & _ & _ & _ & Hf).
  rewrite Hi. intros [= <-]. cbn [root].
  apply stats_hashed. now apply hashes_fresh.
Qed.

Lemma child_fingerprints_hashed (n : TreeNode) :
  hashed n ->
  child_fingerprints n =
  map (fun kh : Z * Z => (fst kh, Some (snd kh)))
      (sorted (map (fun kc : Z * TreeNode => (fst kc, fingerprint (snd kc)))
                   (children n))).
Proof.
  intros Hh. inversion Hh as [? _ Hch]; subst.
  unfold child_fingerprints.
  rewrite (sorted_map fingerprint), map_map. cbn [fst snd].
  apply map_ext_in. intros [t c] Hin. cbn [fst snd].
  assert (Hin' : In (t, c) (children n))
    by (eapply Permutation_in; [symmetry; apply sorted_perm | exact Hin]).
  specialize (Hch t c Hin'). inversion Hch as [? Hs _]; subst.
  now rewrite Hs.
Qed.

Lemma map_some_inj (l1 l2 : list (Z * Z)) :
  map (fun kh : Z * Z => (fst kh, Some (snd kh))) l1 =
  map (fun kh : Z * Z => (fst kh, Some (snd kh))) l2 -> l1 = l2.
Proof.
  revert l2. induction l1 as [|[k h] l1 IH]; intros [|[k' h'] l2] E;
    try discriminate; [reflexivity|].
  cbn in E. injection E as -> -> E. f_equal. now apply IH.
Qed.

Lemma map_py_child_hash_inj (l1 l2 : list (Z * Z)) :
  map py_child_hash l1 = map py_child_hash l2 -> l1 = l2.
Proof.
  revert l2. induction l1 as [|[k h] l1 IH]; intros [|[k' h'] l2] E;
    try discriminate; [reflexivity|].
  cbn in E. injection E as -> -> E. f_equal. now apply IH.
Qed.

(** Two hashed nodes have the same tuple of hash components exactly when
    the rule of the specification cannot tell them apart. *)
Lemma components_same_structure (n1 n2 : TreeNode) :
  hashed n1 -> hashed n2 ->
  (node_components n1 = node_components n2 <-> same_structure n1 n2).
Proof.
  intros H1 H2. unfold same_structure.
  rewrite (child_fingerprints_hashed H1), (child_fingerprints_hashed H2).
  unfold node_components, hash_components. split.
  - intros E. injection E as Et Ee Es Ec.
    apply map_py_child_hash_inj in Ec. rewrite Ec, Ee.
    assert (Htok : token_id n1 = token_id n2).
    { destruct (token_id n1), (token_id n2); cbn in Et;
        try discriminate; congruence. }
    split_and; auto.
    intros He.
    assert (He1 : is_end_of_completion n1 = true) by congruence.
    assert (He2 : is_end_of_completion n2 = true) by congruence.
    rewrite He1, He2 in Es.
    destruct (score n1), (score n2); try discriminate; congruence.
  - intros (Et & Ee & Es & Ec). apply map_some_inj in Ec.
    rewrite Et, Ee, Ec. do 3 f_equal.
    rewrite <- Ee. destruct (is_end_of_completion n1); [|reflexivity].
    now rewrite (Es eq_refl).
Qed.

(** C1, as the code has it.  For two nodes of constructed trees: nodes
    that the rule cannot tell apart (same token, same terminal flag, same
    score when terminal, equal lists of (child token, child fingerprint)
    in token order) have equal fingerprints; and nodes with equal
    fingerprints are alike under the rule whenever the hash does not
    collide on the two tuples of components. *)
Theorem fingerprint_equal_iff_same_structure :
  forall (completions1 completions2 : list (list Z))
         (scores1 scores2 : option (list pyfloat))
         (tree1 tree2 : CompletionTree) (p1 p2 : list Z) (n1 n2 : TreeNode),
    CompletionTree_init completions1 scores1 = Some tree1 ->
    CompletionTree_init completions2 scores2 = Some tree2 ->
    find_path (root tree1) p1 = Some n1 ->
    find_path (root tree2) p2 = Some n2 ->
    (same_structure n1 n2 -> structural_hash n1 = structural_hash n2) /\
    ((_stable_hash (node_components n1) = _stable_hash (node_components n2) ->
      node_components n1 = node_components n2) ->
     (structural_hash n1 = structural_hash n2 <-> same_structure n1 n2)).
Proof.
  intros completions1 completions2 scores1 scores2 tree1 tree2 p1 p2 n1 n2
         Hi1 Hi2 Hf1 Hf2.
  assert (H1 : hashed n1)
    by (eapply hashed_find_path; [eapply init_hashed; exact Hi1 | exact Hf1]).
  assert (H2 : hashed n2)
    by (eapply hashed_find_path; [eapply init_hashed; exact Hi2 | exact Hf2]).
  assert (Hif : same_structure n1 n2 -> structural_hash n1 = structural_hash n2).
  { intros Hs. apply (components_same_structure H1 H2) in Hs.
    inversion H1 as [? E1 _]; inversion H2 as [? E2 _]; subst.
    now rewrite E1, E2, !fingerprint_unfold, Hs. }
  split; [exact Hif|]. intros Hnc. split; [|exact Hif].
  intros E. apply (components_same_structure H1 H2). apply Hnc.
  inversion H1 as [? E1 _]; inversion H2 as [? E2 _]; subst.
  rewrite E1, E2, !fingerprint_unfold in E. congruence.
Qed.

(** ** Insertion order *)



Lemma In_sub_fst (t : Z) (s : list Z) (L : list arrival) :
  In s (map fst (sub t L)) -> In (t :: s) (map fst L).
Proof.
  induction L as [|[[|t' s'] o] L IH]; cbn [sub map fst In]; auto.
  destruct (Z.eqb_spec t t') as [->|Hne]; cbn [map fst In]; [|auto].
  intros [->|H]; auto.
Qed.

Lemma NoDup_sub (t : Z) (L : list arrival) :
  NoDup (map fst L) -> NoDup (map fst (sub t L)).
Proof.
  induction L as [|[[|t' s'] o] L IH]; cbn [sub map fst]; intros Hnd.
  - constructor.
  - inversion Hnd; subst. auto.
  - inversion Hnd as [|? ? Hout Hnd']; subst.
    destruct (Z.eqb_spec t t') as [->|Hne]; cbn [map fst]; [|auto].
    constructor; [|auto]. intros Hin. apply Hout. now apply In_sub_fst.
Qed.





Lemma init_root (completions : list (list Z))
    (scores : option (list pyfloat)) (tree : CompletionTree) :
  CompletionTree_init completions scores = Some tree ->
  repr (core (root tree)) (arrivals completions scores) /\
  token_id (core (root tree)) = ROOT /\
  structural_hash (root tree) = Some (fingerprint (core (root tree))).
Proof.
  intros Hi. split; [apply (init_core _ _ Hi)|].
  pose proof (init_hashed _ _ Hi) as Hh.
  inversion Hh as [? Hs _]; subst. rewrite fingerprint_core. split; [|exact Hs].
  destruct (init_built completions scores)
    as (built & next & _ & Hi' & _ & _ & Ht & _).
  rewrite Hi' in Hi. injection Hi as <-. cbn [root].
  rewrite stats_core, hashes_core, core_unfold. exact Ht.
Qed.


(** ** The mean score at the root *)

Lemma In_sub_inv (t : Z) (s : list Z) (o : option pyfloat) (L : list arrival) :
  In (s, o) (sub t L) -> In (t :: s, o) L.
Proof.
  induction L as [|[[|t' s'] o'] L IH]; cbn [sub In]; auto.
  destruct (Z.eqb_spec t t') as [->|Hne]; cbn [In]; [|auto].
  intros [E|H]; [left; congruence | auto].
Qed.

Lemma prefix_free_sub (t : Z) (L : list arrival) :
  prefix_free L -> prefix_free (sub t L).
Proof.
  intros H [s1 o1] [s2 o2] H1 H2 (r & Hr). cbn [fst] in *.
  apply In_sub_inv in H1. apply In_sub_inv in H2.
  assert (E : t :: s1 = t :: s2).
  { apply (H (t :: s1, o1) (t :: s2, o2) H1 H2). exists r. cbn. congruence. }
  congruence.
Qed.

Lemma prefix_free_terminal (L : list arrival) :
  has_nil L = true -> prefix_free L -> NoDup (map fst L) ->
  exists o, L = [([], o)].
Proof.
  intros Hn Hpf Hnd. apply existsb_exists in Hn.
  destruct Hn as ([[|t s] o] & Hin & He); [|discriminate].
  assert (Hall : forall a, In a L -> fst a = []).
  { intros a Ha. symmetry. apply (Hpf ([], o) a Hin Ha). now exists (fst a). }
  destruct L as [|a [|b L]]; [destruct Hin | |].
  - destruct a as [sa oa]. pose proof (Hall _ (or_introl eq_refl)) as E.
    cbn in E. subst sa. eauto.
  - exfalso. cbn [map] in Hnd. inversion Hnd as [|? ? Hout _]; subst.
    apply Hout. left.
    rewrite (Hall a), (Hall b); cbn; auto.
Qed.

Lemma has_nil_count (L : list arrival) : has_nil L = false -> count_nil L = 0.
Proof.
  unfold has_nil, count_nil. induction L as [|a L IH]; cbn; [reflexivity|].
  destruct (ends_here a); [discriminate | exact IH].
Qed.

Lemma stats_fst_inner (n : TreeNode) :
  is_end_of_completion n = false ->
  fst (_compute_leaf_stats n) =
  fold_left
    (fun (acc : nat * pyfloat) (r : Z * ((nat * pyfloat) * TreeNode)) =>
       (fst acc + fst (fst (snd r)), fadd (snd acc) (snd (fst (snd r)))))
    (map (fun kc : Z * TreeNode => (fst kc, _compute_leaf_stats (snd kc)))
         (children n))
    (0, fzero).
Proof.
  intros He. rewrite stats_unfold, He. cbv zeta.
  destruct (fold_left _ _ _) as [tl ss]. reflexivity.
Qed.

Lemma list_sum_le (A : Type) (f g : A -> nat) (l : list A) :
  (forall x, In x l -> f x <= g x) ->
  list_sum (map f l) <= list_sum (map g l).
Proof.
  induction l as [|x l IH]; intros H; cbn [map list_sum fold_right]; [lia|].
  specialize (H x (or_introl eq_refl)) as Hx.
  specialize (IH (fun y Hy => H y (or_intror Hy))). unfold list_sum in *. lia.
Qed.

Lemma list_sum_In (A : Type) (f : A -> nat) (l : list A) (x : A) :
  In x l -> f x <= list_sum (map f l).
Proof.
  induction l as [|y l IH]; intros Hin; [destruct Hin|].
  cbn [map list_sum fold_right]. destruct Hin as [->|Hin];
    [|specialize (IH Hin)]; unfold list_sum in *; lia.
Qed.

Lemma list_sum_bump_by (f : Z -> nat) (v : nat) (t0 : Z) (ks : list Z) :
  NoDup ks -> In t0 ks ->
  list_sum (map (fun t => if Z.eqb t t0 then v + f t else f t) ks) =
  v + list_sum (map f ks).
Proof.
  induction ks as [|k ks IH]; [intros _ []|].
  intros Hnd Hin. inversion Hnd as [|? ? Hout Hnd']; subst.
  cbn [map list_sum fold_right].
  fold (list_sum (map f ks)).
  fold (list_sum (map (fun t => if Z.eqb t t0 then v + f t else f t) ks)).
  destruct (Z.eqb_spec k t0) as [->|Hne].
  - assert (E : map (fun t => if Z.eqb t t0 then v + f t else f t) ks =
                map f ks).
    { apply map_ext_in. intros t Ht.
      destruct (Z.eqb_spec t t0); [congruence | reflexivity]. }
    rewrite E. lia.
  - destruct Hin as [E|Hin]; [congruence|].
    rewrite IH by assumption. lia.
Qed.

(** The units of the arrivals, split by the child they go on to. *)
Lemma weights_split (wt : list Z -> nat) (ks : list Z) (L : list arrival) :
  NoDup ks -> (forall t, ~ In t ks -> sub t L = []) ->
  has_nil L = false ->
  list_sum (map (fun t => weigh (fun s => wt (t :: s)) (sub t L)) ks) =
  weigh wt L.
Proof.
  intros Hnd. induction L as [|a L IH]; intros Hcov Hn.
  - clear. unfold weigh. cbn [sub map].
    induction ks as [|k ks IHk]; cbn in *; [reflexivity | exact IHk].
  - destruct a as [[|t0 s] o]; [discriminate|].
    assert (Hn' : has_nil L = false) by exact Hn.
    assert (IH' := IH (fun t Ht => sub_cons_nil _ _ _ (Hcov t Ht)) Hn').
    assert (Hin : In t0 ks).
    { destruct (in_dec Z.eq_dec t0 ks) as [Hin|Hout]; [assumption|].
      specialize (Hcov t0 Hout). cbn in Hcov.
      rewrite Z.eqb_refl in Hcov. discriminate. }
    match goal with
    | |- list_sum (map ?f ks) = _ =>
        rewrite (map_ext f
                   (fun t => if Z.eqb t t0
                             then wt (t0 :: s) +
                                  weigh (fun s' => wt (t :: s')) (sub t L)
                             else weigh (fun s' => wt (t :: s')) (sub t L)))
    end.
    2:{ intros t. cbn [sub]. destruct (Z.eqb_spec t t0) as [->|Hne];
          reflexivity. }
    rewrite list_sum_bump_by by assumption. rewrite IH'. reflexivity.
Qed.

Section Grid.
(** Float addition rounds.  A grid is a scale of floats, [g 0], [g 1],
    [g 2], ..., that float addition adds without rounding as long as the
    total stays within [bound]: for IEEE doubles, the whole numbers up to
    2^53, or their multiples by a power of two. *)
Variable g : nat -> pyfloat.
Variable bound : nat.
Hypothesis g_zero : g 0 = fzero.
Hypothesis g_add :
  forall a b, a + b <= bound -> fadd (g a) (g b) = g (a + b).

(** [sum(scores)] of grid values. *)
Lemma fold_left_grid (ks : list nat) :
  forall a, a + list_sum ks <= bound ->
    fold_left fadd (map g ks) (g a) = g (a + list_sum ks).
Proof.
  induction ks as [|k ks IH]; intros a Ha; cbn [map fold_left list_sum fold_right] in *.
  - now rewrite Nat.add_0_r.
  - fold (list_sum ks) in *. rewrite g_add by lia. rewrite IH by lia.
    f_equal. lia.
Qed.

Lemma stats_fold_grid (len W : Z -> nat) (d : list (Z * TreeNode)) :
  (forall t c, In (t, c) d ->
     fst (_compute_leaf_stats c) = (len t, g (W t))) ->
  forall a A : nat,
    A + list_sum (map W (keys d)) <= bound ->
    fold_left
      (fun (acc : nat * pyfloat) (r : Z * ((nat * pyfloat) * TreeNode)) =>
         (fst acc + fst (fst (snd r)), fadd (snd acc) (snd (fst (snd r)))))
      (map (fun kc : Z * TreeNode => (fst kc, _compute_leaf_stats (snd kc))) d)
      (a, g A) =
    (a + list_sum (map len (keys d)), g (A + list_sum (map W (keys d)))).
Proof.
  induction d as [|[t c] d IH]; intros H a A HA;
    cbn [map fold_left keys fst snd list_sum fold_right] in *.
  - now rewrite !Nat.add_0_r.
  - fold (list_sum (map W (map fst d))) in *.
    fold (list_sum (map len (map fst d))).
    rewrite (H t c (or_introl eq_refl)). cbn [fst snd].
    rewrite g_add by lia.
    rewrite (IH (fun t' c' Hin => H t' c' (or_intror Hin))) by (unfold keys; lia).
    unfold keys. f_equal; [lia | f_equal; lia].
Qed.

(** Over arrivals that are distinct and prefix-free and whose scores lie
    on the grid, the pass counts every arrival once and adds up every
    score once, without rounding. *)
Lemma stats_grid (n : TreeNode) :
  forall (L : list arrival) (wt : list Z -> nat),
    repr n L -> NoDup (map fst L) -> prefix_free L ->
    (forall s o, In (s, o) L -> o = Some (g (wt s))) ->
    weigh wt L <= bound ->
    fst (_compute_leaf_stats n) = (List.length L, g (weigh wt L)).
Proof.
  induction n as [n IH] using TreeNode_ind'. intros L wt Hr Hnd Hpf Hg Hb.
  inversion Hr as [? ? He Hs Hk Hcov Hch]; subst.
  destruct (has_nil L) eqn:Hn.
  - destruct (prefix_free_terminal Hn Hpf Hnd) as [o ->].
    rewrite (Hg [] o (or_introl eq_refl)) in *.
    rewrite stats_unfold, He. cbn [fst]. rewrite Hs.
    unfold last_score, weigh.
    cbn [fold_left score_step map fst list_sum fold_right List.length].
    now rewrite Nat.add_0_r.
  - assert (Hcov' : forall t, ~ In t (keys (children n)) -> sub t L = [])
      by (intros t Ht; apply Hcov; now apply dict_get_None).
    pose proof (weights_split wt L Hk Hcov' Hn) as Hw.
    rewrite (stats_fst_inner _ He), <- g_zero.
    rewrite (stats_fold_grid
               (fun t => List.length (sub t L))
               (fun t => weigh (fun s => wt (t :: s)) (sub t L))).
    + cbn [Nat.add]. rewrite Hw.
      pose proof (arrivals_split L Hk Hcov') as Hsp.
      rewrite (has_nil_count _ Hn), Nat.add_0_r in Hsp. now rewrite Hsp.
    + intros t c Hin.
      destruct (Hch t c (In_dict_get _ _ _ Hk Hin)) as (_ & _ & _ & Hrc).
      apply (IH t c Hin); auto using NoDup_sub, prefix_free_sub.
      * intros s o Hso. apply Hg. now apply In_sub_inv.
      * rewrite <- Hw in Hb.
        pose proof (list_sum_In
                      (fun t => weigh (fun s => wt (t :: s)) (sub t L))
                      (keys (children n)) t) as Hle.
        cbv beta in Hle. apply (Nat.le_trans _ _ _ (Hle (in_map fst _ _ Hin))).
        exact Hb.
    + cbn [Nat.add]. now rewrite Hw.
Qed.

Lemma skipn_cons (A : Type) (l : list A) :
  forall k x r, skipn k l = x :: r ->
                nth_error l k = Some x /\ skipn (S k) l = r.
Proof.
  induction l as [|y l IH]; intros [|k] x r H; cbn [skipn nth_error] in *;
    try discriminate.
  - injection H as -> ->. auto.
  - now apply IH.
Qed.

(** The arrivals of a batch that has one grid score per sequence. *)
Lemma arrivals_grid (ss : list pyfloat) (completions : list (list Z)) :
  forall (ks : list nat) (i : nat),
    List.length ks = List.length completions ->
    skipn i ss = map g ks ->
    arrivals_from i completions (Some ss) =
    map (fun ck : list Z * nat => (fst ck, Some (g (snd ck))))
        (combine completions ks).
Proof.
  induction completions as [|c cs IH]; intros [|k ks] i Hlen Hs;
    try discriminate; [reflexivity|].
  cbn [map] in Hs. destruct (skipn_cons _ _ Hs) as [Hn Hs'].
  cbn [arrivals_from combine map fst snd score_at]. rewrite Hn. f_equal.
  apply IH; [now injection Hlen | exact Hs'].
Qed.

Lemma weight_of_In (l : list (list Z * nat)) (s : list Z) (k : nat) :
  NoDup (map fst l) -> In (s, k) l -> weight_of l s = k.
Proof.
  induction l as [|[s' k'] l IH]; intros Hnd Hin; [destruct Hin|].
  cbn [map fst] in Hnd. inversion Hnd as [|? ? Hout Hnd']; subst.
  cbn [weight_of]. destruct (list_eq_dec Z.eq_dec s s') as [->|Hne].
  - destruct Hin as [E|Hin]; [congruence|].
    exfalso. apply Hout. change s' with (fst (s', k)). now apply in_map.
  - destruct Hin as [E|Hin]; [congruence | now apply IH].
Qed.

Lemma combine_fst (A B : Type) (l : list A) :
  forall l' : list B, List.length l' = List.length l ->
                      map fst (combine l l') = l.
Proof.
  induction l as [|x l IH]; intros [|y l'] H; try discriminate;
    [reflexivity|]. cbn [combine map fst]. f_equal. apply IH. now injection H.
Qed.

Lemma combine_snd (A B : Type) (l : list A) :
  forall l' : list B, List.length l' = List.length l ->
                      map snd (combine l l') = l'.
Proof.
  induction l as [|x l IH]; intros [|y l'] H; try discriminate;
    [reflexivity|]. cbn [combine map snd]. f_equal. apply IH. now injection H.
Qed.

(** C8, as the code has it.  When the scores list has one score per
    sequence, the batch is not empty, no sequence occurs twice and none
    is a proper prefix of another, and the scores are values of a grid
    that float addition adds without rounding up to their total (scores
    0.0 and 1.0, for one), the aggregate score of the root is
    [sum(scores) / len(scores)]. *)
Theorem root_percentage_is_mean :
  forall (completions : list (list Z)) (ss : list pyfloat) (ks : list nat)
         (tree : CompletionTree),
    CompletionTree_init completions (Some ss) = Some tree ->
    ss = map g ks ->
    list_sum ks <= bound ->
    List.length ss = List.length completions ->
    completions <> [] ->
    NoDup completions ->
    (forall c1 c2, In c1 completions -> In c2 completions ->
                   is_prefix c1 c2 -> c1 = c2) ->
    get_node_score_percentage tree (root tree) =
    Some (fdiv_int (fold_left fadd ss fzero) (List.length ss)).
Proof.
  intros completions ss ks tree Hi Hss Hb Hlen Hne Hnd Hpf.
  destruct (init_built completions (Some ss))
    as (built & next & _ & Hi' & Hr & _).
  rewrite Hi' in Hi. injection Hi as <-.
  set (h := snd (_compute_structural_hashes built)).
  assert (Hrh : repr h (arrivals completions (Some ss))).
  { apply (proj2 (repr_core h _)). unfold h. rewrite hashes_core.
    exact (proj1 (repr_core built _) Hr). }
  assert (Hfst : map fst (arrivals completions (Some ss)) = completions)
    by apply map_fst_arrivals.
  assert (Hlk : List.length ks = List.length completions)
    by (rewrite <- Hlen, Hss; now rewrite length_map).
  assert (Ha : arrivals completions (Some ss) =
               map (fun ck : list Z * nat => (fst ck, Some (g (snd ck))))
                   (combine completions ks)).
  { apply arrivals_grid; [exact Hlk | exact Hss]. }
  set (wt := weight_of (combine completions ks)).
  assert (Hndc : NoDup (map fst (combine completions ks)))
    by now rewrite combine_fst.
  assert (Hg : forall s o, In (s, o) (arrivals completions (Some ss)) ->
                           o = Some (g (wt s))).
  { intros s o Hin. rewrite Ha in Hin. apply in_map_iff in Hin.
    destruct Hin as ([s' k] & E & Hin). cbn [fst snd] in E.
    injection E as -> <-. unfold wt. now rewrite (weight_of_In _ _ _ Hndc Hin). }
  assert (Hw : weigh wt (arrivals completions (Some ss)) = list_sum ks).
  { unfold weigh. rewrite Ha, map_map. cbn [fst].
    rewrite <- (combine_snd completions ks Hlk) at 2. f_equal.
    apply map_ext_in. intros [s k] Hin. cbn [fst snd]. unfold wt.
    exact (weight_of_In _ _ _ Hndc Hin). }
  assert (Hnd' : NoDup (map fst (arrivals completions (Some ss))))
    by now rewrite Hfst.
  assert (Hpf' : prefix_free (arrivals completions (Some ss))).
  { intros a b H1 H2 Hp. apply Hpf; [| |exact Hp]; rewrite <- Hfst;
      now apply in_map. }
  pose proof (@stats_grid h _ wt Hrh Hnd' Hpf' Hg) as Ht.
  rewrite Hw in Ht. specialize (Ht Hb).
  rewrite stats_fields in Ht. injection Ht as Hl Hsum.
  unfold get_node_score_percentage. cbn [has_scores root negb orb].
  fold h. rewrite Hl, Hsum, length_arrivals.
  destruct (Nat.eqb_spec (List.length completions) 0) as [E|E].
  - destruct completions; [congruence | discriminate].
  - rewrite Hlen. f_equal. f_equal.
    rewrite Hss, <- g_zero, fold_left_grid by (cbn [Nat.add]; exact Hb).
    reflexivity.
Qed.

End Grid.

(** ** The fingerprint is the interpreter's hash of a string *)

(** C4.  The fingerprint cached at a node of a constructed tree is the
    builtin [hash] of the JSON text of the node's components, and nothing
    else: whatever the builtin [hash] of a string depends on, the
    fingerprint depends on. *)
Theorem fingerprint_is_builtin_hash :
  forall (completions : list (list Z)) (scores : option (list pyfloat))
         (tree : CompletionTree) (p : list Z) (n : TreeNode),
    CompletionTree_init completions scores = Some tree ->
    find_path (root tree) p = Some n ->
    structural_hash n = Some (hash (json_dumps (node_components n))).
Proof.
  intros completions scores tree p n Hi Hf.
  assert (Hh : hashed n)
    by (eapply hashed_find_path; [eapply init_hashed; exact Hi | exact Hf]).
  inversion Hh as [? Hs _]; subst. rewrite Hs, fingerprint_unfold. reflexivity.
Qed.

(** Within one interpreter the fingerprint does not look at counts or
    identities: it is the same for two nodes that differ only there. *)
Lemma fingerprint_ignores_count_and_id (n : TreeNode) (c uid : nat) :
  fingerprint
    (mkTreeNode (token_id n) uid (children n) (is_end_of_completion n)
       (score n) c (structural_hash n) (descendant_leaf_count n)
       (descendant_score_sum n)) = fingerprint n.
Proof. rewrite !fingerprint_unfold. reflexivity. Qed.

(** ** The call depth of the two passes *)

Lemma height_unfold (n : TreeNode) :
  height n =
  fold_right (fun kc acc => Nat.max (S (height (snd kc))) acc) 0 (children n).
Proof. destruct n; reflexivity. Qed.

Lemma height_child (n : TreeNode) (t : Z) (c : TreeNode) :
  In (t, c) (children n) -> S (height c) <= height n.
Proof.
  rewrite (height_unfold n). induction (children n) as [|kc d IH]; cbn [In fold_right].
  - tauto.
  - intros [->|Hin]; [cbn [snd]; lia | specialize (IH Hin); lia].
Qed.

Lemma height_bound (n : TreeNode) (k : nat) :
  (forall t c, In (t, c) (children n) -> S (height c) <= k) -> height n <= k.
Proof.
  rewrite (height_unfold n). induction (children n) as [|[t c] d IH];
    cbn [fold_right snd]; intros H; [lia|].
  specialize (H t c (or_introl eq_refl)) as H1.
  specialize (IH (fun t' c' Hin => H t' c' (or_intror Hin))). lia.
Qed.

Lemma height_core (n : TreeNode) : height (core n) = height n.
Proof.
  induction n as [n IH] using TreeNode_ind'.
  rewrite (height_unfold (core n)), (height_unfold n), (core_unfold n).
  cbn [children]. induction (children n) as [|[t c] d IHd]; [reflexivity|].
  cbn [map fold_right fst snd].
  rewrite (IH t c (or_introl eq_refl)).
  rewrite IHd; [reflexivity|]. intros t' c' Hin. apply (IH t' c'). now right.
Qed.

Lemma In_sub_length (t : Z) (k : nat) (L : list arrival) :
  (forall a, In a L -> List.length (fst a) <= S k) ->
  forall a, In a (sub t L) -> List.length (fst a) <= k.
Proof.
  intros H [s o] Hin. apply In_sub_inv in Hin.
  specialize (H _ Hin). cbn in *. lia.
Qed.

(** A constructed tree is no deeper than its longest sequence. *)
Lemma repr_height (n : TreeNode) :
  forall (L : list arrival) (k : nat),
    repr n L -> (forall a, In a L -> List.length (fst a) <= k) ->
    height n <= k.
Proof.
  induction n as [n IH] using TreeNode_ind'. intros L k Hr Hlen.
  inversion Hr as [? ? _ _ Hk _ Hch]; subst.
  apply height_bound. intros t c Hin.
  destruct (Hch t c (In_dict_get _ _ _ Hk Hin)) as (_ & _ & Hne & Hrc).
  destruct k as [|k].
  - exfalso. destruct (sub t L) as [|[s o] r] eqn:E; [congruence|].
    assert (Hin' : In (s, o) (sub t L)) by (rewrite E; now left).
    apply In_sub_inv in Hin'. specialize (Hlen _ Hin'). cbn in Hlen. lia.
  - apply le_n_S. apply (IH t c Hin (sub t L)); [assumption|].
    now apply In_sub_length.
Qed.

Lemma all_some_map (A : Type) (f' : TreeNode -> option A) (f : TreeNode -> A)
    (d : list (Z * TreeNode)) :
  (forall t c, In (t, c) d -> f' c = Some (f c)) ->
  all_some (map (fun kc : Z * TreeNode => (fst kc, f' (snd kc))) d) =
  Some (map (fun kc : Z * TreeNode => (fst kc, f (snd kc))) d).
Proof.
  induction d as [|[t c] d IH]; intros H; [reflexivity|].
  cbn [map all_some fst snd]. rewrite (H t c (or_introl eq_refl)).
  rewrite IH; [reflexivity|].
  intros t' c' Hin. apply (H t' c'). now right.
Qed.

Lemma all_some_fails (A : Type) (f' : TreeNode -> option A)
    (d : list (Z * TreeNode)) (t : Z) (c : TreeNode) :
  In (t, c) d -> f' c = None ->
  all_some (map (fun kc : Z * TreeNode => (fst kc, f' (snd kc))) d) = None.
Proof.
  induction d as [|[t0 c0] d IH]; intros Hin Hn; [destruct Hin|].
  cbn [map all_some fst snd]. destruct Hin as [E|Hin].
  - injection E as -> ->. now rewrite Hn.
  - destruct (f' c0); [|reflexivity]. now rewrite IH.
Qed.

Lemma repr_height_ge (n : TreeNode) :
  forall (L : list arrival) (a : arrival),
    repr n L -> In a L -> List.length (fst a) <= height n.
Proof.
  induction n as [n IH] using TreeNode_ind'. intros L [[|t s] o] Hr Hin;
    cbn [fst List.length]; [lia|].
  inversion Hr as [? ? _ _ _ Hcov Hch]; subst.
  assert (Hs : In (s, o) (sub t L)).
  { apply (In_sub_path [t] s o L). exact Hin. }
  destruct (dict_get t (children n)) as [c|] eqn:Hg.
  - destruct (Hch t c Hg) as (_ & _ & _ & Hrc).
    pose proof (dict_get_In _ _ Hg) as Hc.
    pose proof (IH t c Hc _ _ Hrc Hs) as Hle. cbn [fst] in Hle.
    pose proof (height_child n t c Hc). lia.
  - rewrite (Hcov t Hg) in Hs. destruct Hs.
Qed.

Lemma longest_ge (completions : list (list Z)) (c : list Z) :
  In c completions -> List.length c <= longest completions.
Proof.
  unfold longest. induction completions as [|c0 cs IH]; intros Hin;
    [destruct Hin|]. cbn [fold_right].
  destruct Hin as [->|Hin]; [|specialize (IH Hin)]; lia.
Qed.

Lemma longest_le (completions : list (list Z)) (k : nat) :
  (forall c, In c completions -> List.length c <= k) ->
  longest completions <= k.
Proof.
  unfold longest. induction completions as [|c0 cs IH]; intros H;
    cbn [fold_right]; [lia|].
  specialize (H c0 (or_introl eq_refl)) as H0.
  specialize (IH (fun c Hc => H c (or_intror Hc))). lia.
Qed.

(** A constructed tree is exactly as deep as its longest sequence. *)
Lemma height_built (completions : list (list Z))
    (scores : option (list pyfloat)) (built : TreeNode) :
  repr built (arrivals completions scores) ->
  height built = longest completions.
Proof.
  intros Hr. apply Nat.le_antisymm.
  - apply (repr_height Hr). intros [c o] Hin. cbn [fst].
    apply longest_ge. rewrite <- (map_fst_arrivals completions scores 0).
    change c with (fst (c, o)). now apply in_map.
  - apply longest_le. intros c Hc.
    rewrite <- (map_fst_arrivals completions scores 0) in Hc.
    apply in_map_iff in Hc. destruct Hc as (a & <- & Ha).
    eapply repr_height_ge; [exact Hr | exact Ha].
Qed.

(** With a frame for every level, one for [_stable_hash] and those that
    [json.dumps] needs, the bounded fingerprint pass returns what the pass
    returns. *)
Lemma hashes_within_enough (K : nat) :
  (forall v, dumps_frames v <= K) ->
  forall (frames : nat) (n : TreeNode),
    height n + K + 2 <= frames ->
    _compute_structural_hashes_within frames n =
    Some (_compute_structural_hashes n).
Proof.
  intros HK. induction frames as [|k IH]; intros n Hh; [lia|].
  cbn [_compute_structural_hashes_within]. rewrite hashes_unfold.
  destruct (structural_hash n); [reflexivity|].
  rewrite (all_some_map (_compute_structural_hashes_within k)
                        _compute_structural_hashes).
  - cbv zeta. unfold _stable_hash_within. destruct k as [|k']; [lia|].
    match goal with
    | |- context [Nat.leb (dumps_frames ?v) ?b] =>
        destruct (Nat.leb_spec (dumps_frames v) b) as [Hle|Hgt];
          [reflexivity | pose proof (HK v); lia]
    end.
  - intros t c Hin. apply IH. pose proof (height_child n t c Hin). lia.
Qed.

(** The statistics pass calls nothing but itself. *)
Lemma stats_within_enough (frames : nat) :
  forall n, height n < frames ->
    _compute_leaf_stats_within frames n = Some (_compute_leaf_stats n).
Proof.
  induction frames as [|k IH]; intros n Hh; [lia|].
  cbn [_compute_leaf_stats_within]. rewrite stats_unfold.
  destruct (is_end_of_completion n); [reflexivity|].
  rewrite (all_some_map (_compute_leaf_stats_within k) _compute_leaf_stats).
  - cbv zeta. destruct (fold_left _ _ _) as [tl ss]. reflexivity.
  - intros t c Hin. apply IH. pose proof (height_child n t c Hin). lia.
Qed.

(** On a fresh tree the fingerprint pass needs a frame per level and one
    more for [_stable_hash] at the deepest node: with fewer it raises,
    whatever [json.dumps] needs. *)
Lemma hashes_within_short (frames : nat) :
  forall n, fresh n -> frames <= height n + 1 ->
    _compute_structural_hashes_within frames n = None.
Proof.
  induction frames as [|k IH]; intros n Hf Hh; [reflexivity|].
  inversion Hf as [? Hs Hch]; subst.
  cbn [_compute_structural_hashes_within]. rewrite Hs.
  destruct k as [|k'].
  - destruct (all_some _); reflexivity.
  - assert (Hc : exists t c, In (t, c) (children n) /\ S k' <= height c + 1).
    { rewrite (height_unfold n) in Hh. clear - Hh.
      induction (children n) as [|[t c] d IHd]; cbn [fold_right snd] in Hh;
        [lia|].
      destruct (Nat.le_gt_cases (S k') (height c + 1)) as [H|H].
      - exists t, c. split; [now left | assumption].
      - destruct IHd as (t' & c' & Hin & Hk); [lia|].
        exists t', c'. split; [now right | assumption]. }
    destruct Hc as (t & c & Hin & Hk).
    rewrite (all_some_fails _ _ t c Hin); [reflexivity|].
    apply IH; eauto.
Qed.

(** C9, as the code has it.  Construction returns for every batch (its
    loops do not recurse) and the number of children of a node plays no
    part.  The two passes call themselves once per level of the tree, and
    the fingerprint pass calls [_stable_hash] and [json.dumps] at every
    level.  With [frames] calls left on the stack: when the longest
    sequence has [frames - 2 - K] tokens or fewer, [K] being a bound on
    the frames [json.dumps] needs, both passes return, and return what the
    passes compute; when the longest sequence has [frames - 1] tokens or
    more, the fingerprint pass raises [RecursionError]. *)
Theorem passes_need_a_frame_per_level :
  forall (frames : nat) (completions : list (list Z))
         (scores : option (list pyfloat)),
  exists built next,
    _build_tree completions scores 0 = Some (built, next) /\
    (forall K,
       (forall v, dumps_frames v <= K) ->
       longest completions + K + 2 <= frames ->
       _compute_structural_hashes_within frames built =
         Some (_compute_structural_hashes built) /\
       _compute_leaf_stats_within frames
         (snd (_compute_structural_hashes built)) =
         Some (_compute_leaf_stats (snd (_compute_structural_hashes built)))) /\
    (frames <= longest completions + 1 ->
     _compute_structural_hashes_within frames built = None).
Proof.
  intros frames completions scores.
  destruct (build_tree_repr completions scores 0)
    as (built & next & Hb & Hr & _ & _ & Hf).
  exists built, next. split; [exact Hb|].
  pose proof (@height_built completions scores built Hr) as Hh. split.
  - intros K HK Hlen. split.
    + apply (@hashes_within_enough K HK). lia.
    + apply stats_within_enough.
      rewrite <- height_core, hashes_core, height_core. lia.
  - intros Hshort. apply hashes_within_short; [exact Hf | lia].
Qed.

(** ** A 64-bit hash cannot tell all structures apart *)

Lemma bounded_search (f : nat -> nat) (v : nat) (n : nat) :
  (exists i, i <= n /\ f i = v) \/ (forall i, i <= n -> f i <> v).
Proof.
  induction n as [|n IH].
  - destruct (Nat.eq_dec (f 0) v) as [E|E].
    + left. exists 0. auto.
    + right. intros i Hi. replace i with 0 by lia. exact E.
  - destruct IH as [(i & Hi & E)|Hnone].
    + left. exists i. auto.
    + destruct (Nat.eq_dec (f (S n)) v) as [E|E].
      * left. exists (S n). auto.
      * right. intros i Hi.
        destruct (Nat.eq_dec i (S n)) as [->|Hne]; [exact E|].
        apply Hnone. lia.
Qed.

Lemma pigeonhole (N : nat) :
  forall f : nat -> nat,
    (forall i, i <= N -> f i < N) ->
    exists i j, i < j /\ j <= N /\ f i = f j.
Proof.
  induction N as [|N IH]; intros f Hf.
  - specialize (Hf 0 (Nat.le_refl 0)). lia.
  - destruct (bounded_search f (f (S N)) N) as [(i & Hi & E)|Hnone].
    + exists i, (S N). split_and; [lia | lia | exact E].
    + set (v := f (S N)) in *.
      set (g := fun i => if Nat.ltb (f i) v then f i else Nat.pred (f i)).
      assert (Hv : v < S N) by (apply Hf; lia).
      destruct (IH g) as (i & j & Hij & Hj & E).
      { intros i Hi. unfold g.
        specialize (Hf i (Nat.le_trans _ _ _ Hi (Nat.le_succ_diag_r N))).
        specialize (Hnone i Hi).
        destruct (Nat.ltb_spec (f i) v); lia. }
      exists i, j. split_and; [assumption | lia |].
      unfold g in E.
      assert (Hi' := Hnone i ltac:(lia)). assert (Hj' := Hnone j Hj).
      destruct (Nat.ltb_spec (f i) v), (Nat.ltb_spec (f j) v); lia.
Qed.

Lemma collision_in_range (R : Z) (g : nat -> Z) :
  (forall i, (0 <= g i < R)%Z) -> exists i j, i < j /\ g i = g j.
Proof.
  intros Hg.
  destruct (@pigeonhole (Z.to_nat R) (fun i => Z.to_nat (g i)))
    as (i & j & Hij & _ & E).
  - intros i _. apply Z2Nat.inj_lt; specialize (Hg i); lia.
  - exists i, j. split; [assumption|].
    apply Z2Nat.inj; [specialize (Hg i) | specialize (Hg j) | exact E]; lia.
Qed.

Lemma probe_spec (a : Z) :
  exists tree,
    CompletionTree_init [[a]] None = Some tree /\
    structural_hash (root tree) = Some (probe a) /\
    map fst (child_fingerprints (root tree)) = [a] /\
    exists s, probe a = hash s.
Proof.
  unfold probe. eexists. split; [reflexivity|]. cbn.
  split_and; [reflexivity | reflexivity |]. unfold _stable_hash. eauto.
Qed.

(** Whatever the hash, if its values fit 64 bits then two constructed
    trees with different structure have equal root fingerprints. *)
Lemma fingerprint_collision :
  (forall s, (- 2 ^ 63 <= hash s < 2 ^ 63)%Z) ->
  exists (a b : Z) (tree1 tree2 : CompletionTree),
    CompletionTree_init [[a]] None = Some tree1 /\
    CompletionTree_init [[b]] None = Some tree2 /\
    structural_hash (root tree1) = structural_hash (root tree2) /\
    ~ same_structure (root tree1) (root tree2).
Proof.
  intros Hrange.
  assert (Hp : forall a, (- 2 ^ 63 <= probe a < 2 ^ 63)%Z).
  { intros a. destruct (probe_spec a) as (_ & _ & _ & _ & s & ->).
    apply Hrange. }
  destruct (@collision_in_range (2 ^ 64)%Z
              (fun i => (probe (Z.of_nat i) + 2 ^ 63)%Z))
    as (i & j & Hij & E).
  { intros i. specialize (Hp (Z.of_nat i)). cbv beta.
    change (2 ^ 64)%Z with (2 ^ 63 + 2 ^ 63)%Z. lia. }
  cbv beta in E.
  assert (E' : probe (Z.of_nat i) = probe (Z.of_nat j)) by lia.
  destruct (probe_spec (Z.of_nat i)) as (t1 & Hi1 & Hs1 & Hk1 & _).
  destruct (probe_spec (Z.of_nat j)) as (t2 & Hi2 & Hs2 & Hk2 & _).
  exists (Z.of_nat i), (Z.of_nat j), t1, t2.
  split_and; [assumption | assumption | congruence |].
  intros (_ & _ & _ & Hc). rewrite Hc in Hk1. rewrite Hk1 in Hk2.
  injection Hk2 as Hk2. lia.
Qed.

(** ** The tree as a trie of the batch *)

Lemma starts_with_prefix (p : list Z) :
  forall c, starts_with p c = true <-> is_prefix p c.
Proof.
  induction p as [|t p IH]; intros c; cbn [starts_with].
  - split; [intros _; now exists c | reflexivity].
  - destruct c as [|t' c].
    + split; [discriminate | intros (r & Hr); discriminate].
    + rewrite andb_true_iff, Z.eqb_eq, IH. split.
      * intros (E & r & Hr). subst. now exists r.
      * intros (r & Hr). cbn in Hr. injection Hr as E1 E2. subst.
        split; [reflexivity | now exists r].
Qed.

Lemma length_sub (t : Z) (p : list Z) (L : list arrival) :
  List.length (filter (fun a : arrival => starts_with p (fst a)) (sub t L)) =
  List.length (filter (fun a : arrival => starts_with (t :: p) (fst a)) L).
Proof.
  induction L as [|[[|t' s] o] L IH]; cbn [sub filter fst starts_with]; auto.
  destruct (Z.eqb t t'); cbn [andb filter fst]; [|exact IH].
  destruct (starts_with p s); cbn [List.length]; now rewrite IH.
Qed.

Lemma length_sub_path (p : list Z) :
  forall L : list arrival,
    List.length (sub_path p L) =
    List.length (filter (fun a : arrival => starts_with p (fst a)) L).
Proof.
  induction p as [|t p IH]; intros L; cbn [sub_path].
  - induction L as [|a L IHL]; cbn [filter starts_with List.length]; auto.
  - now rewrite IH, length_sub.
Qed.

Lemma filter_fst_arrivals (f : list Z -> bool) (completions : list (list Z))
    (scores : option (list pyfloat)) :
  forall i,
    List.length (filter (fun a : arrival => f (fst a))
                        (arrivals_from i completions scores)) =
    List.length (filter f completions).
Proof.
  induction completions as [|c cs IH]; intros i; [reflexivity|].
  cbn [arrivals_from filter fst]. destruct (f c); cbn [List.length]; now rewrite IH.
Qed.

(** How many sequences of the batch go through path [p]. *)
Lemma traffic (p : list Z) (completions : list (list Z))
    (scores : option (list pyfloat)) :
  List.length (sub_path p (arrivals completions scores)) =
  List.length (filter (starts_with p) completions).
Proof.
  rewrite length_sub_path. unfold arrivals.
  exact (filter_fst_arrivals (starts_with p) completions scores 0).
Qed.

Lemma existsb_filter (A : Type) (f : A -> bool) (l : list A) :
  existsb f l = true <-> List.length (filter f l) <> 0.
Proof.
  induction l as [|x l IH]; cbn [existsb filter]; [cbn; split; [discriminate|congruence]|].
  destruct (f x); cbn [orb List.length]; [split; [discriminate | reflexivity] | exact IH].
Qed.

Lemma has_nil_count_pos (L : list arrival) :
  has_nil L = true <-> count_nil L <> 0.
Proof. unfold has_nil, count_nil. apply existsb_filter. Qed.

(** What construction leaves at the node of a path, seen through the two
    passes. *)
Lemma init_node (completions : list (list Z))
    (scores : option (list pyfloat)) (tree : CompletionTree) (p : list Z)
    (n : TreeNode) :
  CompletionTree_init completions scores = Some tree ->
  find_path (root tree) p = Some n ->
  repr (core n) (sub_path p (arrivals completions scores)) /\
  count n = List.length (sub_path p (arrivals completions scores)) /\
  (p <> [] -> sub_path p (arrivals completions scores) <> []).
Proof.
  intros Hi Hf. destruct (init_core _ _ Hi) as [Hr Hc].
  assert (Hf' : find_path (core (root tree)) p = Some (core n))
    by (rewrite find_path_core, Hf; reflexivity).
  destruct (repr_find_path p Hr Hf') as [Hrn Hcn].
  split; [exact Hrn|]. destruct p as [|t p].
  - cbn [find_path] in Hf. injection Hf as <-. cbn [sub_path].
    rewrite length_arrivals. split; [exact Hc | congruence].
  - rewrite <- (count_core n). split; apply Hcn; discriminate.
Qed.

(** A path leads to a node exactly when it is empty or some sequence of
    the batch starts with it. *)
Theorem path_exists_iff_prefix :
  forall (completions : list (list Z)) (scores : option (list pyfloat))
         (p : list Z),
  exists tree,
    CompletionTree_init completions scores = Some tree /\
    ((exists n, find_path (root tree) p = Some n) <->
     p = [] \/ existsb (starts_with p) completions = true).
Proof.
  intros completions scores p.
  destruct (init_built completions scores) as (built & next & _ & Hi & _).
  eexists. split; [exact Hi|]. split.
  - intros (n & Hf). destruct p as [|t p]; [now left | right].
    destruct (init_node _ _ _ Hi Hf) as (_ & _ & Hne).
    apply existsb_filter. rewrite <- (traffic (t :: p) completions scores).
    intros E. apply Hne; [discriminate|].
    now apply length_zero_iff_nil.
  - intros [->|He]; [eexists; reflexivity|].
    destruct (init_core _ _ Hi) as [Hr _].
    destruct (repr_path_exists p Hr) as [m Hm].
    + intros E. apply existsb_filter in He. apply He.
      rewrite <- (traffic p completions scores), E. reflexivity.
    + destruct (find_path_core_inv _ _ Hm) as (n & Hf & _). eauto.
Qed.

(** [count] is the number of sequences of the batch that go through the
    node: those that start with the node's path. *)
Theorem count_is_traffic :
  forall (completions : list (list Z)) (scores : option (list pyfloat)),
  exists tree,
    CompletionTree_init completions scores = Some tree /\
    forall (p : list Z) (n : TreeNode),
      find_path (root tree) p = Some n ->
      count n = List.length (filter (starts_with p) completions) /\
      (p <> [] -> 1 <= count n).
Proof.
  intros completions scores.
  destruct (init_built completions scores) as (built & next & _ & Hi & _).
  eexists. split; [exact Hi|]. intros p n Hf.
  destruct (init_node _ _ _ Hi Hf) as (_ & Hc & Hne).
  rewrite <- traffic with (scores := scores). split; [exact Hc|].
  intros Hp. specialize (Hne Hp). rewrite Hc.
  destruct (sub_path p (arrivals completions scores)); [congruence | cbn; lia].
Qed.

(** A node is terminal exactly when its path is a sequence of the batch. *)
Theorem terminal_iff_inserted :
  forall (completions : list (list Z)) (scores : option (list pyfloat)),
  exists tree,
    CompletionTree_init completions scores = Some tree /\
    forall (p : list Z) (n : TreeNode),
      find_path (root tree) p = Some n ->
      (is_end_of_completion n = true <-> In p completions).
Proof.
  intros completions scores.
  destruct (init_built completions scores) as (built & next & _ & Hi & _).
  eexists. split; [exact Hi|]. intros p n Hf.
  destruct (init_node _ _ _ Hi Hf) as (Hr & _).
  inversion Hr as [? ? He _ _ _ _]; subst.
  rewrite core_unfold in He. cbn [is_end_of_completion] in He. rewrite He.
  rewrite has_nil_count_pos, count_nil_sub_path.
  unfold arrivals. rewrite map_fst_arrivals.
  rewrite (count_occ_In path_eq_dec). lia.
Qed.

Lemma last_score_at_In (p : list Z) (s : pyfloat) (L : list arrival) :
  forall acc,
    fold_left
      (fun (acc : option pyfloat) (a : arrival) =>
         if list_eq_dec Z.eq_dec (fst a) p
         then match snd a with Some s => Some s | None => acc end
         else acc) L acc = Some s ->
    acc = Some s \/ In (p, Some s) L.
Proof.
  induction L as [|[q o] L IH]; intros acc H; cbn [fold_left fst snd] in H;
    [now left|].
  destruct (IH _ H) as [E|Hin]; [|right; now right].
  destruct (list_eq_dec Z.eq_dec q p) as [->|Hne]; [|now left].
  destruct o as [s'|]; [|now left]. right. left. congruence.
Qed.

(** A node never carries a score that was not supplied for it: a score
    sits on a terminal node only, and it is the score supplied for a
    sequence that ends exactly there. *)
Theorem score_comes_from_a_sequence :
  forall (completions : list (list Z)) (scores : option (list pyfloat)),
  exists tree,
    CompletionTree_init completions scores = Some tree /\
    forall (p : list Z) (n : TreeNode) (s : pyfloat),
      find_path (root tree) p = Some n ->
      score n = Some s ->
      is_end_of_completion n = true /\
      exists (ss : list pyfloat) (i : nat),
        scores = Some ss /\ nth_error completions i = Some p /\
        nth_error ss i = Some s.
Proof.
  intros completions scores.
  destruct (init_built completions scores) as (built & next & _ & Hi & _).
  eexists. split; [exact Hi|]. intros p n s Hf Hs.
  destruct (init_node _ _ _ Hi Hf) as (Hr & _).
  inversion Hr as [? ? He Hsc _ _ _]; subst.
  rewrite core_unfold in He, Hsc. cbn [score is_end_of_completion] in He, Hsc.
  rewrite Hs, last_score_sub_path in Hsc. symmetry in Hsc.
  destruct (last_score_at_In _ _ _ Hsc) as [E|Hin]; [discriminate|].
  split.
  - rewrite He. apply existsb_exists. exists ([], Some s).
    split; [|reflexivity]. apply In_sub_path. now rewrite app_nil_r.
  - destruct (In_nth_error _ _ Hin) as [i Hn].
    unfold arrivals in Hn. rewrite nth_error_arrivals in Hn. cbn [Nat.add] in Hn.
    destruct (nth_error completions i) as [c|] eqn:Ec; [|discriminate].
    cbn [option_map] in Hn. injection Hn as -> Hsa.
    destruct scores as [ss|]; [|discriminate]. cbn [score_at] in Hsa.
    exists ss, i. auto.
Qed.
(** ** Tokens and counts along a path *)

Lemma repr_token (p : list Z) (t : Z) :
  forall (n m : TreeNode) (L : list arrival),
    repr n L -> find_path n (p ++ [t]) = Some m -> token_id m = Tok t.
Proof.
  induction p as [|t' p IH]; intros n m L Hr Hf; cbn [app find_path] in Hf;
    inversion Hr as [? ? _ _ _ _ Hch]; subst.
  - destruct (dict_get t (children n)) as [c|] eqn:Hg; [|discriminate].
    injection Hf as <-. now destruct (Hch t c Hg).
  - destruct (dict_get t' (children n)) as [c|] eqn:Hg; [|discriminate].
    destruct (Hch t' c Hg) as (_ & _ & _ & Hrc). exact (IH c m _ Hrc Hf).
Qed.

Lemma token_id_core (n : TreeNode) : token_id (core n) = token_id n.
Proof. rewrite core_unfold. reflexivity. Qed.

(** The root carries ["ROOT"]; any other node carries the token that leads
    to it, the last token of its path. *)
Theorem node_token_is_last_of_path :
  forall (completions : list (list Z)) (scores : option (list pyfloat)),
  exists tree,
    CompletionTree_init completions scores = Some tree /\
    token_id (root tree) = ROOT /\
    forall (p : list Z) (t : Z) (n : TreeNode),
      find_path (root tree) (p ++ [t]) = Some n -> token_id n = Tok t.
Proof.
  intros completions scores.
  destruct (init_built completions scores) as (built & next & _ & Hi & _).
  eexists. split; [exact Hi|].
  destruct (init_root _ _ Hi) as (Hr & Ht & _).
  split; [now rewrite <- token_id_core|].
  intros p t n Hf. rewrite <- token_id_core.
  apply (repr_token p t Hr). now rewrite find_path_core, Hf.
Qed.

Lemma length_sub_le (t : Z) (L : list arrival) :
  List.length (sub t L) <= List.length L.
Proof.
  induction L as [|[[|t' s] o] L IH]; cbn [sub List.length]; [lia | lia |].
  destruct (Z.eqb t t'); cbn [List.length]; lia.
Qed.

Lemma children_core (n : TreeNode) :
  children (core n) =
  map (fun kc : Z * TreeNode => (fst kc, core (snd kc))) (children n).
Proof. rewrite core_unfold. reflexivity. Qed.

(** Going down the tree the counts do not grow: a child is traversed by
    at least one sequence and by no more sequences than its parent. *)
Theorem child_count_bounds :
  forall (completions : list (list Z)) (scores : option (list pyfloat)),
  exists tree,
    CompletionTree_init completions scores = Some tree /\
    forall (p : list Z) (n : TreeNode) (t : Z) (c : TreeNode),
      find_path (root tree) p = Some n ->
      In (t, c) (children n) ->
      1 <= count c <= count n.
Proof.
  intros completions scores.
  destruct (init_built completions scores) as (built & next & _ & Hi & _).
  eexists. split; [exact Hi|]. intros p n t c Hf Hin.
  destruct (init_node _ _ _ Hi Hf) as (Hr & Hc & _).
  inversion Hr as [? ? _ _ Hk _ Hch]; subst.
  assert (Hin' : In (t, core c) (children (core n))).
  { rewrite children_core.
    exact (in_map (fun kc : Z * TreeNode => (fst kc, core (snd kc))) _ _ Hin). }
  destruct (Hch t (core c) (In_dict_get _ _ _ Hk Hin')) as (_ & Hcc & Hne & _).
  rewrite count_core in Hcc. rewrite Hcc, Hc.
  pose proof (length_sub_le t (sub_path p (arrivals completions scores))).
  destruct (sub t (sub_path p (arrivals completions scores)));
    [congruence | cbn [List.length] in *; lia].
Qed.

(** ** Node identifiers *)

Lemma ids_unfold (n : TreeNode) :
  ids n =
  unique_id n :: flat_map (fun kc : Z * TreeNode => ids (snd kc)) (children n).
Proof. destruct n; reflexivity. Qed.

Lemma ids_core (n : TreeNode) : ids (core n) = ids n.
Proof.
  induction n as [n IH] using TreeNode_ind'.
  rewrite (ids_unfold (core n)), (ids_unfold n), (core_unfold n).
  cbn [unique_id children]. f_equal.
  induction (children n) as [|[t c] d IHd]; [reflexivity|].
  cbn [map flat_map fst snd].
  rewrite (IH t c (or_introl eq_refl)).
  rewrite IHd; [reflexivity|]. intros t' c' Hin. apply (IH t' c'). now right.
Qed.

Lemma unique_id_core (n : TreeNode) : unique_id (core n) = unique_id n.
Proof. rewrite core_unfold. reflexivity. Qed.

Lemma flat_ids_set_old (d : list (Z * TreeNode)) :
  forall (t : Z) (c c' : TreeNode) (extra : list nat),
    dict_get t d = Some c ->
    Permutation (ids c') (ids c ++ extra) ->
    Permutation
      (flat_map (fun kc : Z * TreeNode => ids (snd kc)) (dict_set t c' d))
      (flat_map (fun kc : Z * TreeNode => ids (snd kc)) d ++ extra).
Proof.
  induction d as [|[k v] d IH]; intros t c c' extra Hg HP;
    cbn [dict_get dict_set] in *; [discriminate|].
  destruct (Z.eqb t k).
  - injection Hg as ->. cbn [flat_map snd]. rewrite HP, <- !app_assoc.
    apply Permutation_app_head, Permutation_app_comm.
  - cbn [flat_map snd]. rewrite <- app_assoc.
    apply Permutation_app_head. exact (IH t c c' extra Hg HP).
Qed.

Lemma flat_ids_set_new (d : list (Z * TreeNode)) (t : Z) (c' : TreeNode) :
  dict_get t d = None ->
  flat_map (fun kc : Z * TreeNode => ids (snd kc)) (dict_set t c' d) =
  flat_map (fun kc : Z * TreeNode => ids (snd kc)) d ++ ids c'.
Proof.
  induction d as [|[k v] d IH]; intros Hg; cbn [dict_get dict_set] in *.
  - cbn [flat_map snd]. now rewrite app_nil_r.
  - destruct (Z.eqb t k); [discriminate|].
    cbn [flat_map snd]. now rewrite IH, app_assoc.
Qed.

Lemma seq_cons (a k : nat) : a :: seq (S a) k = seq a (S k).
Proof. reflexivity. Qed.

(** One insertion keeps every id in place and gives the nodes it creates
    the ids [next], ..., [next' - 1]. *)
Lemma walk_ids (tokens : list Z) (i : nat) (scores : option (list pyfloat)) :
  forall (n : TreeNode) (next : nat) (n' : TreeNode) (next' : nat),
    walk tokens i scores n next = Some (n', next') ->
    next <= next' /\ unique_id n' = unique_id n /\
    Permutation (ids n') (ids n ++ seq next (next' - next)).
Proof.
  induction tokens as [|t rest IH]; intros n next n' next' Hw;
    cbn [walk] in Hw.
  - rewrite assign_score_eq in Hw. injection Hw as <- <-.
    rewrite Nat.sub_diag, app_nil_r. cbn [seq].
    split; [lia|]. rewrite (ids_unfold n).
    destruct (score_at scores i); split; reflexivity.
  - destruct (dict_get t (children n)) as [c|] eqn:Hg.
    + destruct (walk rest i scores (set_count c (count c + 1)) next)
        as [[c' next2]|] eqn:Hw'; [|discriminate].
      injection Hw as <- <-.
      destruct (IH _ _ _ _ Hw') as (Hle & _ & HP).
      split; [exact Hle|]. split; [reflexivity|].
      rewrite (ids_unfold n), (ids_unfold (set_children n _)).
      cbn [unique_id children set_children app]. apply perm_skip.
      eapply flat_ids_set_old; [exact Hg|].
      rewrite HP, (ids_unfold (set_count c _)), (ids_unfold c). reflexivity.
    + destruct (walk rest i scores
                  (set_count (new_TreeNode (Tok t) next)
                     (count (new_TreeNode (Tok t) next) + 1)) (S next))
        as [[c' next2]|] eqn:Hw'; [|discriminate].
      injection Hw as <- <-.
      destruct (IH _ _ _ _ Hw') as (Hle & _ & HP).
      split; [lia|]. split; [reflexivity|].
      rewrite (ids_unfold n), (ids_unfold (set_children n _)).
      cbn [unique_id children set_children app]. apply perm_skip.
      rewrite flat_ids_set_new by exact Hg. apply Permutation_app_head.
      rewrite HP. cbn [ids new_TreeNode set_count unique_id children flat_map app].
      replace (next2 - next) with (S (next2 - S next)) by lia.
      reflexivity.
Qed.

Lemma build_loop_ids (completions : list (list Z)) :
  forall (i : nat) (scores : option (list pyfloat)) (n : TreeNode)
         (next : nat) (n' : TreeNode) (next' : nat),
    build_loop i completions scores n next = Some (n', next') ->
    next <= next' /\ unique_id n' = unique_id n /\
    Permutation (ids n') (ids n ++ seq next (next' - next)).
Proof.
  induction completions as [|tokens rest IH]; intros i scores n next n' next' Hb;
    cbn [build_loop] in Hb.
  - injection Hb as <- <-. rewrite Nat.sub_diag, app_nil_r. cbn [seq].
    split; [lia|]. split; reflexivity.
  - destruct (walk tokens i scores n next) as [[n1 next1]|] eqn:Hw;
      [|discriminate].
    destruct (walk_ids _ _ _ _ _ Hw) as (Hle1 & Hu1 & HP1).
    destruct (IH _ _ _ _ _ _ Hb) as (Hle2 & Hu2 & HP2).
    split; [lia|]. split; [congruence|].
    rewrite HP2, HP1, <- app_assoc. apply Permutation_app_head.
    replace (next' - next) with ((next1 - next) + (next' - next1)) by lia.
    rewrite seq_app. replace (next + (next1 - next)) with next1 by lia.
    reflexivity.
Qed.

(** [_get_next_id] hands out 0, 1, 2, ...: the root has id 0, the ids of
    the nodes of the tree are exactly the numbers below [_next_id], each
    once. *)
Theorem unique_ids_are_a_numbering :
  forall (completions : list (list Z)) (scores : option (list pyfloat)),
  exists tree,
    CompletionTree_init completions scores = Some tree /\
    unique_id (root tree) = 0 /\
    Permutation (ids (root tree)) (seq 0 (_next_id tree)) /\
    NoDup (ids (root tree)) /\
    List.length (ids (root tree)) = _next_id tree.
Proof.
  intros completions scores.
  destruct (init_built completions scores) as (built & next & Hb & Hi & _).
  eexists. split; [exact Hi|]. cbn [root _next_id].
  unfold _build_tree in Hb.
  destruct (build_loop_ids _ _ _ _ _ Hb) as (Hle & Hu & HP).
  assert (E : ids (snd (_compute_leaf_stats
                          (snd (_compute_structural_hashes built)))) =
              ids built).
  { now rewrite <- ids_core, stats_core, hashes_core, ids_core. }
  assert (HP' : Permutation (ids built) (seq 0 next)).
  { rewrite HP. cbn [ids set_count new_TreeNode unique_id children flat_map app].
    replace next with (S (next - 1)) at 2 by lia. reflexivity. }
  split_and.
  - rewrite <- unique_id_core, stats_core, hashes_core, unique_id_core.
    exact Hu.
  - now rewrite E.
  - rewrite E. apply (Permutation_NoDup (Permutation_sym HP')), seq_NoDup.
  - rewrite E, (Permutation_length HP'). apply length_seq.
Qed.
(** ** Running a pass again *)

Lemma stats_idem (n : TreeNode) :
  _compute_leaf_stats (snd (_compute_leaf_stats n)) = _compute_leaf_stats n.
Proof.
  induction n as [n IH] using TreeNode_ind'.
  rewrite (stats_unfold (snd (_compute_leaf_stats n))).
  destruct (stats_keeps n) as (He & Hs & _). rewrite He, Hs, stats_children.
  rewrite (stats_unfold n).
  destruct (is_end_of_completion n) eqn:E; [reflexivity|].
  cbv zeta. rewrite map_map. cbn [fst snd].
  rewrite (map_children_ext
             (fun c => _compute_leaf_stats (snd (_compute_leaf_stats c)))
             _compute_leaf_stats (children n) IH).
  destruct (fold_left _ _ _) as [tl ss]. reflexivity.
Qed.

Lemma hashes_idem (n : TreeNode) :
  _compute_structural_hashes (snd (_compute_structural_hashes n)) =
  _compute_structural_hashes n.
Proof.
  rewrite (hashes_unfold n). destruct (structural_hash n) as [h|] eqn:E.
  - cbn [snd]. now rewrite hashes_unfold, E.
  - cbv zeta. cbn [snd]. rewrite hashes_unfold. reflexivity.
Qed.

(** Each pass can be run again on its own result: it returns the same
    values and leaves the tree as it is.  (The fingerprint pass returns
    the cached hash; the statistics pass recomputes the same numbers.) *)
Theorem passes_are_idempotent :
  forall n : TreeNode,
    _compute_structural_hashes (snd (_compute_structural_hashes n)) =
      _compute_structural_hashes n /\
    _compute_leaf_stats (snd (_compute_leaf_stats n)) = _compute_leaf_stats n.
Proof. intros n. split; [apply hashes_idem | apply stats_idem]. Qed.

(** ** How many leaves the root sees *)

Lemma stats_fold_fst (d : list (Z * TreeNode)) :
  forall acc : nat * pyfloat,
    fst (fold_left
           (fun (acc : nat * pyfloat) (r : Z * ((nat * pyfloat) * TreeNode)) =>
              (fst acc + fst (fst (snd r)), fadd (snd acc) (snd (fst (snd r)))))
           (map (fun kc : Z * TreeNode => (fst kc, _compute_leaf_stats (snd kc))) d)
           acc) =
    fst acc +
    list_sum (map (fun kc : Z * TreeNode =>
                     fst (fst (_compute_leaf_stats (snd kc)))) d).
Proof.
  induction d as [|[t c] d IH]; intros acc; cbn [map fold_left].
  - cbn. lia.
  - rewrite IH. unfold list_sum. cbn [map fold_right fst snd]. lia.
Qed.

Lemma leaves_inner (n : TreeNode) :
  is_end_of_completion n = false ->
  fst (fst (_compute_leaf_stats n)) =
  list_sum (map (fun kc : Z * TreeNode =>
                   fst (fst (_compute_leaf_stats (snd kc)))) (children n)).
Proof.
  intros He. rewrite (stats_fst_inner _ He), stats_fold_fst. reflexivity.
Qed.

Lemma has_nil_nonempty (L : list arrival) : has_nil L = true -> L <> [].
Proof. destruct L; [discriminate | discriminate]. Qed.

(** The leaf count of a subtree: no more than the sequences that reach it,
    and at least one when one does. *)
Lemma leaves_bounds (n : TreeNode) :
  forall L : list arrival,
    repr n L ->
    fst (fst (_compute_leaf_stats n)) <= List.length L /\
    (L <> [] -> 1 <= fst (fst (_compute_leaf_stats n))).
Proof.
  induction n as [n IH] using TreeNode_ind'. intros L Hr.
  inversion Hr as [? ? He Hs Hk Hcov Hch]; subst.
  destruct (has_nil L) eqn:Hn.
  - rewrite stats_unfold, He. cbn [fst].
    pose proof (@has_nil_nonempty L Hn) as Hne.
    destruct L; [congruence | cbn [List.length]; split; [lia | auto]].
  - rewrite (leaves_inner _ He). split.
    + pose proof (arrivals_split L Hk) as Hsp.
      rewrite (has_nil_count _ Hn), Nat.add_0_r in Hsp.
      rewrite <- Hsp; [|intros t Ht; apply Hcov; now apply dict_get_None].
      unfold keys. rewrite map_map. apply list_sum_le. intros [t c] Hin.
      cbn [fst snd].
      destruct (Hch t c (In_dict_get _ _ _ Hk Hin)) as (_ & _ & _ & Hrc).
      exact (proj1 (IH t c Hin _ Hrc)).
    + intros Hne. destruct L as [|[[|t s] o] L]; [congruence | discriminate |].
      destruct (dict_get t (children n)) as [c|] eqn:Hg.
      * destruct (Hch t c Hg) as (_ & _ & Hsub & Hrc).
        pose proof (dict_get_In _ _ Hg) as Hin.
        pose proof (proj2 (IH t c Hin _ Hrc) Hsub) as H1.
        pose proof (list_sum_In
                      (fun kc : Z * TreeNode =>
                         fst (fst (_compute_leaf_stats (snd kc))))
                      _ _ Hin) as H2.
        cbn [snd] in H2. lia.
      * specialize (Hcov t Hg). cbn [sub] in Hcov.
        rewrite Z.eqb_refl in Hcov. discriminate.
Qed.

(** Over arrivals that are distinct and prefix-free every arrival is a
    leaf of its own. *)
Lemma leaves_total (n : TreeNode) :
  forall L : list arrival,
    repr n L -> NoDup (map fst L) -> prefix_free L ->
    fst (fst (_compute_leaf_stats n)) = List.length L.
Proof.
  induction n as [n IH] using TreeNode_ind'. intros L Hr Hnd Hpf.
  inversion Hr as [? ? He Hs Hk Hcov Hch]; subst.
  destruct (has_nil L) eqn:Hn.
  - destruct (prefix_free_terminal Hn Hpf Hnd) as [o ->].
    rewrite stats_unfold, He. reflexivity.
  - rewrite (leaves_inner _ He).
    pose proof (arrivals_split L Hk) as Hsp.
    rewrite (has_nil_count _ Hn), Nat.add_0_r in Hsp.
    rewrite <- Hsp; [|intros t Ht; apply Hcov; now apply dict_get_None].
    unfold keys. rewrite map_map. f_equal. apply map_ext_in. intros [t c] Hin.
    cbn [fst snd].
    destruct (Hch t c (In_dict_get _ _ _ Hk Hin)) as (_ & _ & _ & Hrc).
    apply (IH t c Hin); auto using NoDup_sub, prefix_free_sub.
Qed.

Lemma init_hashed_repr (completions : list (list Z))
    (scores : option (list pyfloat)) :
  exists built next,
    CompletionTree_init completions scores =
      Some (mkCompletionTree
              (snd (_compute_leaf_stats
                      (snd (_compute_structural_hashes built))))
              (match scores with Some _ => true | None => false end) next) /\
    repr (snd (_compute_structural_hashes built))
         (arrivals completions scores).
Proof.
  destruct (init_built completions scores)
    as (built & next & _ & Hi & Hr & _).
  exists built, next. split; [exact Hi|].
  apply (proj2 (repr_core _ _)). rewrite hashes_core.
  exact (proj1 (repr_core built _) Hr).
Qed.

(** The root's leaf count is at most the size of the batch and is zero
    only for the empty batch; so the root's aggregate score is absent
    exactly when no scores list was given or the batch is empty, also when
    the scores list is empty or short. *)
Theorem root_leaf_count_bounds :
  forall (completions : list (list Z)) (scores : option (list pyfloat)),
  exists tree,
    CompletionTree_init completions scores = Some tree /\
    descendant_leaf_count (root tree) <= List.length completions /\
    (descendant_leaf_count (root tree) = 0 <-> completions = []) /\
    (get_node_score_percentage tree (root tree) = None <->
     scores = None \/ completions = []).
Proof.
  intros completions scores.
  destruct (init_hashed_repr completions scores) as (built & next & Hi & Hr).
  eexists. split; [exact Hi|]. cbn [root].
  set (h := snd (_compute_structural_hashes built)) in *.
  destruct (leaves_bounds Hr) as [Hle Hpos].
  rewrite stats_fields in Hle, Hpos. cbn [fst] in Hle, Hpos.
  rewrite length_arrivals in Hle.
  assert (Hz : descendant_leaf_count (snd (_compute_leaf_stats h)) = 0 <->
               completions = []).
  { split.
    - intros E. destruct completions as [|c cs]; [reflexivity|].
      assert (1 <= descendant_leaf_count (snd (_compute_leaf_stats h)))
        by (apply Hpos; discriminate). lia.
    - intros ->. cbn [List.length] in Hle. lia. }
  split_and; [exact Hle | exact Hz | split].
  - unfold get_node_score_percentage. cbn [has_scores root].
    destruct scores; cbn [negb orb]; [|now left].
    destruct (Nat.eqb_spec (descendant_leaf_count (snd (_compute_leaf_stats h))) 0)
      as [E|E]; [intros _; right; now apply Hz | discriminate].
  - unfold get_node_score_percentage. cbn [has_scores root].
    intros [->|E]; [reflexivity|]. apply Hz in E. rewrite E.
    destruct scores; reflexivity.
Qed.

(** When no sequence occurs twice and none is a proper prefix of another,
    every sequence is a leaf of its own: the root's leaf count is the size
    of the batch, whatever the floats do. *)
Theorem root_leaf_count_is_batch_size :
  forall (completions : list (list Z)) (scores : option (list pyfloat)),
    NoDup completions ->
    (forall c1 c2, In c1 completions -> In c2 completions ->
                   is_prefix c1 c2 -> c1 = c2) ->
    exists tree,
      CompletionTree_init completions scores = Some tree /\
      descendant_leaf_count (root tree) = List.length completions.
Proof.
  intros completions scores Hnd Hpf.
  destruct (init_hashed_repr completions scores) as (built & next & Hi & Hr).
  eexists. split; [exact Hi|]. cbn [root].
  assert (Hfst : map fst (arrivals completions scores) = completions)
    by apply map_fst_arrivals.
  pose proof (@leaves_total _ _ Hr) as Ht.
  rewrite stats_fields, length_arrivals in Ht. cbn [fst] in Ht. apply Ht.
  - now rewrite Hfst.
  - intros a b H1 H2 Hp. apply Hpf; [| |exact Hp]; rewrite <- Hfst;
      now apply in_map.
Qed.
End Model.

(** * plotter.py *)

Lemma visible_app (s1 s2 : pystr) :
  visible (s1 ++ s2) = visible s1 && visible s2.
Proof. apply forallb_app. Qed.

Lemma visible_firstn (k : nat) (s : pystr) :
  visible s = true -> visible (firstn k s) = true.
Proof.
  revert k. induction s as [|x s IH]; intros [|k]; cbn; auto.
  intros H. apply andb_true_iff in H. destruct H as [Hx Hs].
  now rewrite Hx, IH.
Qed.

Lemma visible_slice (k : Z) (s : pystr) :
  visible s = true -> visible (slice_to k s) = true.
Proof. unfold slice_to. destruct (Z.leb 0 k); apply visible_firstn. Qed.

(** Replacing one whitespace character by a visible marker leaves no
    occurrence of it and adds no other. *)
Lemma replace_spec (c : Z) (r s : pystr) (x : Z) :
  ~ In x r -> (In x (replace c r s) <-> In x s /\ x <> c).
Proof.
  intros Hr. unfold replace. rewrite in_flat_map. split.
  - intros (y & Hy & Hin). destruct (Z.eqb_spec y c) as [->|Hne];
      [contradiction|]. destruct Hin as [<-|[]]. auto.
  - intros (Hin & Hne). exists x. split; [assumption|].
    destruct (Z.eqb_spec x c); [contradiction | now left].
Qed.

Lemma visible_spec (s : pystr) :
  visible s = true <-> ~ In 10%Z s /\ ~ In 32%Z s /\ ~ In 9%Z s.
Proof.
  unfold visible. rewrite forallb_forall. unfold whitespace. split.
  - intros H. repeat split; intros Hin; specialize (H _ Hin); discriminate.
  - intros (H1 & H2 & H3) x Hin.
    destruct (Z.eqb_spec x 10) as [->|]; [contradiction|].
    destruct (Z.eqb_spec x 32) as [->|]; [contradiction|].
    destruct (Z.eqb_spec x 9) as [->|]; [contradiction|]. reflexivity.
Qed.

Lemma visible_uint (d : Decimal.uint) :
  visible (codes (NilEmpty.string_of_uint d)) = true.
Proof. induction d; cbn; auto. Qed.

Lemma visible_text_of_Z (z : Z) : visible (codes (text_of_Z z)) = true.
Proof.
  unfold text_of_Z, NilZero.string_of_int.
  destruct (Z.to_int z) as [d|d]; unfold NilZero.string_of_uint.
  - destruct d; try reflexivity; apply (visible_uint (_ _)).
  - cbn. destruct d; try reflexivity; apply (visible_uint (_ _)).
Qed.

(** The label never holds a newline, a space or a tab, whatever the
    tokenizer returns and whether or not it raises. *)
Theorem display_label_is_visible :
  forall (decode : Z -> option pystr) (token_id : option token)
         (max_length : Z),
    visible (_decode_token_for_display decode token_id max_length) = true.
Proof.
  intros decode [[|t]|] max_length; cbn [_decode_token_for_display];
    [reflexivity | | reflexivity].
  destruct (decode t) as [decoded|].
  - cbv zeta.
    assert (H : visible (replace 9 (codes "<TAB>")
                           (replace 32 (codes "<SP>")
                              (replace 10 (codes "<NL>") decoded))) = true).
    { apply visible_spec.
      rewrite !replace_spec by (cbn; intuition discriminate). intuition congruence. }
    destruct (Z.ltb _ _); [|exact H].
    rewrite visible_app, (visible_slice _ _ H). reflexivity.
  - rewrite visible_app, visible_text_of_Z. reflexivity.
Qed.

Lemma length_slice_to (k : Z) (s : pystr) :
  (0 <= k)%Z -> (k <= Z.of_nat (List.length s))%Z ->
  List.length (slice_to k s) = Z.to_nat k.
Proof.
  intros H0 Hk. unfold slice_to. destruct (Z.leb_spec 0 k); [|lia].
  rewrite length_firstn. lia.
Qed.

(** For [max_length] of 3 or more (the callers pass 20 and 15), the label
    of a token the tokenizer decodes is at most [max_length] long. *)
Theorem display_label_fits :
  forall (decode : Z -> option pystr) (t : Z) (decoded : pystr)
         (max_length : Z),
    (3 <= max_length)%Z ->
    decode t = Some decoded ->
    (Z.of_nat (List.length
                 (_decode_token_for_display decode (Some (Tok t)) max_length))
       <= max_length)%Z.
Proof.
  intros decode t decoded max_length H3 Hd.
  cbn [_decode_token_for_display]. rewrite Hd. cbv zeta.
  set (safe := replace 9 _ _).
  destruct (Z.ltb_spec max_length (Z.of_nat (List.length safe))) as [Hlt|Hge];
    [|exact Hge].
  rewrite length_app, length_slice_to by lia. cbn [codes List.length list_ascii_of_string map]. lia.
Qed.

(** * Closed instances

    The theorems above hold for every float type, JSON encoder and hash.
    The instances below run the model on the sample runtime (IEEE
    doubles). *)

Definition sample_init :=
  CompletionTree_init Sample.fzero Sample.fadd Sample.json_dumps Sample.hash.

Definition sample_percentage := get_node_score_percentage Sample.fdiv_int.

(** [sum(ss) / len(ss)] *)
Definition sample_mean (ss : list float) : float :=
  Sample.fdiv_int (fold_left Sample.fadd ss Sample.fzero) (List.length ss).

(** ** C1 *)

Lemma fingerprint_equal_iff_same_structure_witness :
  exists tree n1 n2,
    sample_init [[1; 2]; [3; 2]]%Z None = Some tree /\
    find_path (root tree) [1; 2]%Z = Some n1 /\
    find_path (root tree) [3; 2]%Z = Some n2 /\
    (same_structure n1 n2 -> structural_hash n1 = structural_hash n2) /\
    ((_stable_hash Sample.json_dumps Sample.hash
        (node_components Sample.json_dumps Sample.hash n1) =
      _stable_hash Sample.json_dumps Sample.hash
        (node_components Sample.json_dumps Sample.hash n2) ->
      node_components Sample.json_dumps Sample.hash n1 =
      node_components Sample.json_dumps Sample.hash n2) ->
     (structural_hash n1 = structural_hash n2 <-> same_structure n1 n2)).
Proof.
  eexists. eexists. eexists.
  split; [vm_compute; reflexivity|].
  split; [vm_compute; reflexivity|].
  split; [vm_compute; reflexivity|].
  eapply (fingerprint_equal_iff_same_structure Sample.fzero Sample.fadd
            Sample.fdiv_int Sample.json_dumps Sample.hash
            [[1; 2]; [3; 2]]%Z [[1; 2]; [3; 2]]%Z None None [1; 2]%Z [3; 2]%Z);
    vm_compute; reflexivity.
Defined.

(** C1, as stated, fails for every runtime: Python's [hash] returns a
    machine word, and no JSON encoder and no hash with 64-bit values make
    equal fingerprints imply equal structure on all constructed trees. *)
Lemma no_word_sized_hash_separates_all_structures :
  ~ exists (json_dumps : pyvalue float -> string) (hash : string -> Z),
      (forall s, - 2 ^ 63 <= hash s < 2 ^ 63)%Z /\
      forall (completions1 completions2 : list (list Z))
             (scores1 scores2 : option (list float))
             (tree1 tree2 : CompletionTree float) (p1 p2 : list Z)
             (n1 n2 : TreeNode float),
        CompletionTree_init Sample.fzero Sample.fadd json_dumps hash
          completions1 scores1 = Some tree1 ->
        CompletionTree_init Sample.fzero Sample.fadd json_dumps hash
          completions2 scores2 = Some tree2 ->
        find_path (root tree1) p1 = Some n1 ->
        find_path (root tree2) p2 = Some n2 ->
        (structural_hash n1 = structural_hash n2 <-> same_structure n1 n2).
Proof.
  intros (json_dumps & hash & Hrange & Hclaim).
  destruct (fingerprint_collision Sample.fzero Sample.fadd json_dumps hash Hrange)
    as (a & b & tree1 & tree2 & H1 & H2 & Heq & Hdiff).
  apply Hdiff.
  apply (Hclaim [[a]] [[b]] None None tree1 tree2 [] [] _ _ H1 H2
           eq_refl eq_refl).
  exact Heq.
Qed.

(** ** C2 *)



(** ** C4 *)

Lemma fingerprint_is_builtin_hash_witness :
  exists tree n,
    sample_init [[1; 2]; [1; 3]]%Z None = Some tree /\
    find_path (root tree) [1]%Z = Some n /\
    structural_hash n =
    Some (Sample.hash
            (Sample.json_dumps
               (node_components Sample.json_dumps Sample.hash n))).
Proof.
  eexists. eexists.
  split; [vm_compute; reflexivity|].
  split; [vm_compute; reflexivity|].
  eapply (fingerprint_is_builtin_hash Sample.fzero Sample.fadd Sample.fdiv_int
            Sample.json_dumps Sample.hash [[1; 2]; [1; 3]]%Z None [1]%Z);
    vm_compute; reflexivity.
Defined.

(** ** C6 *)


(** ** C8 *)

Lemma root_percentage_is_mean_witness :
  Sample.units 0 = Sample.fzero /\
  (forall a b, a + b <= 2 ->
     Sample.fadd (Sample.units a) (Sample.units b) = Sample.units (a + b)) /\
  exists tree,
    sample_init [[1; 2]; [1; 3]; [4]]%Z
      (Some [1%float; 0%float; 1%float]) = Some tree /\
    [1%float; 0%float; 1%float] = map Sample.units [1; 0; 1] /\
    list_sum [1; 0; 1] <= 2 /\
    List.length [1%float; 0%float; 1%float] =
      List.length [[1; 2]; [1; 3]; [4]]%Z /\
    [[1; 2]; [1; 3]; [4]]%Z <> [] /\
    NoDup [[1; 2]; [1; 3]; [4]]%Z /\
    (forall c1 c2, In c1 [[1; 2]; [1; 3]; [4]]%Z ->
                   In c2 [[1; 2]; [1; 3]; [4]]%Z ->
                   is_prefix c1 c2 -> c1 = c2) /\
    sample_percentage tree (root tree) =
    Some (sample_mean [1%float; 0%float; 1%float]).
Proof.
  assert (Hz : Sample.units 0 = Sample.fzero) by reflexivity.
  assert (Ha : forall a b, a + b <= 2 ->
                 Sample.fadd (Sample.units a) (Sample.units b) =
                 Sample.units (a + b)).
  { intros a b H.
    destruct a as [|[|[|a]]]; destruct b as [|[|[|b]]]; try lia;
      reflexivity. }
  assert (Hnd : NoDup [[1; 2]; [1; 3]; [4]]%Z).
  { constructor; [intros [H|[H|[]]]; discriminate H|].
    constructor; [intros [H|[]]; discriminate H|].
    constructor; [intros []|constructor]. }
  assert (Hpf : forall c1 c2, In c1 [[1; 2]; [1; 3]; [4]]%Z ->
                              In c2 [[1; 2]; [1; 3]; [4]]%Z ->
                              is_prefix c1 c2 -> c1 = c2).
  { intros c1 c2 [<-|[<-|[<-|[]]]] [<-|[<-|[<-|[]]]] (r & Hr);
      try reflexivity; discriminate Hr. }
  split; [exact Hz|]. split; [exact Ha|].
  eexists. split; [vm_compute; reflexivity|].
  split; [reflexivity|]. split; [cbn; lia|]. split; [reflexivity|].
  split; [discriminate|]. split; [exact Hnd|]. split; [exact Hpf|].
  eapply (root_percentage_is_mean Sample.fadd Sample.fdiv_int
            Sample.json_dumps Sample.hash Sample.units (bound := 2) Hz Ha
            (completions := [[1; 2]; [1; 3]; [4]]%Z)
            (ss := [1%float; 0%float; 1%float]) [1; 0; 1]);
    [vm_compute; reflexivity | reflexivity | cbn; lia | reflexivity
    | discriminate | exact Hnd | exact Hpf].
Defined.

(** C8, as stated, fails when a sequence occurs twice (the node keeps the
    score of the last one and counts as one leaf), and on IEEE doubles it
    fails by rounding (the pass adds the scores subtree by subtree, the
    mean adds them in list order). *)
Lemma root_percentage_is_not_the_mean :
  (exists tree,
     sample_init [[1]; [1]]%Z (Some [1%float; 0%float]) = Some tree /\
     sample_percentage tree (root tree) = Some 0%float /\
     sample_mean [1%float; 0%float] = 0.5%float /\
     sample_percentage tree (root tree) <> Some (sample_mean [1%float; 0%float]))
  /\
  (exists tree,
     sample_init [[1]; [2; 1]; [2; 2]]%Z
       (Some [0x1.999999999999ap-4%float; 0x1.999999999999ap-3%float;
              0x1.3333333333333p-2%float]) = Some tree /\
     sample_percentage tree (root tree) <>
     Some (sample_mean [0x1.999999999999ap-4%float; 0x1.999999999999ap-3%float;
                        0x1.3333333333333p-2%float])).
Proof.
  split.
  - eexists. split; [vm_compute; reflexivity|].
    split; [vm_compute; reflexivity|]. split; [vm_compute; reflexivity|].
    intros H.
    apply (f_equal (fun o : option float =>
                      match o with
                      | Some v => PrimFloat.ltb v 0.5%float
                      | None => false
                      end)) in H.
    vm_compute in H. discriminate H.
  - eexists. split; [vm_compute; reflexivity|].
    intros H.
    apply (f_equal (fun o : option float =>
                      match o with
                      | Some v => PrimFloat.ltb v 0x1.999999999999ap-3%float
                      | None => false
                      end)) in H.
    vm_compute in H. discriminate H.
Qed.

(** ** C9 *)

Lemma passes_need_a_frame_per_level_witness :
  exists built next,
    _build_tree Sample.fzero [[1; 2]; [1]]%Z None 0 = Some (built, next) /\
    (forall v, Sample.dumps_frames v <= 10) /\
    longest [[1; 2]; [1]]%Z + 10 + 2 <= 1000 /\
    _compute_structural_hashes_within Sample.json_dumps Sample.hash
      Sample.dumps_frames 1000 built =
      Some (_compute_structural_hashes Sample.json_dumps Sample.hash built) /\
    _compute_leaf_stats_within Sample.fzero Sample.fadd 1000
      (snd (_compute_structural_hashes Sample.json_dumps Sample.hash built)) =
      Some (_compute_leaf_stats Sample.fzero Sample.fadd
              (snd (_compute_structural_hashes Sample.json_dumps Sample.hash
                      built))).
Proof.
  destruct (passes_need_a_frame_per_level Sample.fzero Sample.fadd
              Sample.fdiv_int Sample.json_dumps Sample.hash
              Sample.dumps_frames 1000 [[1; 2]; [1]]%Z None)
    as (built & next & Hb & Hlong & _).
  assert (HK : forall v, Sample.dumps_frames v <= 10)
    by (intros v; apply Nat.le_refl).
  assert (Hl : longest [[1; 2]; [1]]%Z + 10 + 2 <= 1000)
    by (apply Nat.leb_le; vm_compute; reflexivity).
  exists built, next. split; [exact Hb|]. split; [exact HK|].
  split; [exact Hl|]. exact (Hlong 10 HK Hl).
Defined.

(** C9, as stated, fails: on one sequence of 1000 tokens construction
    returns, and the fingerprint pass, with the 1000 frames of Python's
    default recursion limit all to itself and [json.dumps] costing
    nothing, raises [RecursionError]. *)
Lemma fingerprint_pass_overflows_the_stack :
  option_map
    (fun built : TreeNode float * nat =>
       _compute_structural_hashes_within Sample.json_dumps Sample.hash
         (fun _ => 0) 1000 (fst built))
    (_build_tree Sample.fzero [repeat 0%Z 1000] None 0) = Some None.
Proof. vm_compute. reflexivity. Qed.

(** ** C10 *)

Lemma unscored_termination_keeps_score_witness :
  exists r r' next',
    walk Sample.fzero [7]%Z 0 (Some [1%float])
      (set_count (new_TreeNode Sample.fzero ROOT 0) 2) 1 = Some (r, 2) /\
    walk Sample.fzero [7]%Z 1 (Some [1%float]) r 2 = Some (r', next') /\
    (exists x, find_path r' [7]%Z = Some x /\ is_end_of_completion x = true) /\
    (forall (p : list Z) (m : TreeNode float),
       find_path r p = Some m ->
       exists m',
         find_path r' p = Some m' /\
         (is_end_of_completion m = true -> is_end_of_completion m' = true) /\
         (score m' <> score m ->
          p = [7]%Z /\
          exists ss, Some [1%float] = Some ss /\ 1 < List.length ss)) /\
    ((forall ss, Some [1%float] = Some ss -> List.length ss <= 1) ->
     forall (p : list Z) (m : TreeNode float),
       find_path r p = Some m ->
       exists m', find_path r' p = Some m' /\ score m' = score m).
Proof.
  eexists. eexists. eexists.
  split; [vm_compute; reflexivity|].
  split; [vm_compute; reflexivity|].
  eapply (unscored_termination_keeps_score Sample.fzero [7]%Z 1
            (Some [1%float]) _ 2).
  vm_compute. reflexivity.
Defined.

(** ** Instances of the other theorems *)

Lemma root_leaf_count_is_batch_size_witness :
  NoDup [[1; 2]; [1; 3]; [4]]%Z /\
  (forall c1 c2, In c1 [[1; 2]; [1; 3]; [4]]%Z ->
                 In c2 [[1; 2]; [1; 3]; [4]]%Z ->
                 is_prefix c1 c2 -> c1 = c2) /\
  exists tree,
    sample_init [[1; 2]; [1; 3]; [4]]%Z (Some [1%float]) = Some tree /\
    descendant_leaf_count (root tree) = 3.
Proof.
  assert (Hnd : NoDup [[1; 2]; [1; 3]; [4]]%Z).
  { constructor; [intros [H|[H|[]]]; discriminate H|].
    constructor; [intros [H|[]]; discriminate H|].
    constructor; [intros []|constructor]. }
  assert (Hpf : forall c1 c2, In c1 [[1; 2]; [1; 3]; [4]]%Z ->
                              In c2 [[1; 2]; [1; 3]; [4]]%Z ->
                              is_prefix c1 c2 -> c1 = c2).
  { intros c1 c2 [<-|[<-|[<-|[]]]] [<-|[<-|[<-|[]]]] (r & Hr);
      try reflexivity; discriminate Hr. }
  split; [exact Hnd|]. split; [exact Hpf|].
  exact (root_leaf_count_is_batch_size Sample.fzero Sample.fadd
           Sample.fdiv_int Sample.json_dumps Sample.hash
           (completions := [[1; 2]; [1; 3]; [4]]%Z) (Some [1%float]) Hnd Hpf).
Defined.

Lemma display_label_fits_witness :
  (3 <= 15)%Z /\
  (fun _ : Z => Some (codes "hello wide world")) 42%Z =
    Some (codes "hello wide world") /\
  (Z.of_nat
     (List.length
        (_decode_token_for_display
           (fun _ : Z => Some (codes "hello wide world"))
           (Some (Tok 42)) 15)) <= 15)%Z.
Proof.
  split; [lia|]. split; [reflexivity|].
  apply (display_label_fits (fun _ : Z => Some (codes "hello wide world"))
           42%Z (decoded := codes "hello wide world")); [lia | reflexivity].
Defined.
